(** * Jotti uploader: a shallow embedding of [jotti.go] and its properties

    The development follows the single source file of the repository:
    the checksum computer ([calculateSHA1Checksum]), the remote lookup
    ([checkJottiSearch]), the progress-tracking reader ([progressReader]
    with [Read], [render], [renderDone]), the upload client ([uploadFile])
    and the per-file loop of [main].

    Effects are explicit.  Every function that touches the outside world
    takes what the outside world answers as an argument and returns the
    list of events it performs, together with either its Go return value
    or the exit status passed to [os.Exit]. *)

From Stdlib Require Import ZArith List String Ascii Bool Lia.
From Stdlib Require Import Strings.Byte.
From Stdlib Require Import DecimalString.
From Stdlib Require Import SpecFloat.
Import ListNotations.

Local Open Scope string_scope.
Local Open Scope list_scope.
Local Open Scope Z_scope.

(** ** Go library functions used by the program *)

Module GoLib.

(** [strings.HasPrefix]. *)
Fixpoint hasPrefix (s p : string) {struct p} : bool :=
  match p, s with
  | EmptyString, _ => true
  | String c p', String d s' => Ascii.eqb c d && hasPrefix s' p'
  | String _ _, EmptyString => false
  end.

(** [strings.Contains s substr]: does [substr] occur within [s]. *)
Fixpoint contains (s substr : string) : bool :=
  hasPrefix s substr ||
  match s with
  | EmptyString => false
  | String _ s' => contains s' substr
  end.

(** The verb [%d] of package [fmt] on an integer. *)
Definition itoa (z : Z) : string := NilZero.string_of_int (Z.to_int z).

Definition CR : string := String (ascii_of_nat 13) EmptyString.
Definition LF : string := String (ascii_of_nat 10) EmptyString.

(** A Go [error] value.  [io_EOF] is the sentinel [io.EOF]; every other
    error is kept by its message (what [%v] prints). *)
Inductive error : Type :=
| io_EOF
| Err (msg : string).

Definition errorString (e : error) : string :=
  match e with
  | io_EOF => "EOF"
  | Err msg => msg
  end.

Definition is_EOF (e : option error) : bool :=
  match e with
  | Some io_EOF => true
  | _ => false
  end.

(** Arithmetic on [int64] wraps around. *)
Definition wrap64 (z : Z) : Z := (z + 2 ^ 63) mod 2 ^ 64 - 2 ^ 63.

End GoLib.
Export GoLib.

(** ** Events and the effect monad *)

Inductive event : Type :=
| EvStat (path : string)                      (* os.Stat *)
| EvOpen (path : string)                      (* os.Open *)
| EvHttpGet (url : string)                    (* httpClient.Get *)
| EvHttpPost (url : string) (contentLength : Z)  (* httpClient.Do of a POST *)
| EvStdout (s : string)                       (* fmt.Printf / fmt.Println *)
| EvStderr (s : string)                       (* fmt.Fprint* to os.Stderr *)
| EvLog (s : string)                          (* log.Printf: a stamped line on stderr *)
| EvSleep (ms : Z).                           (* time.Sleep, in milliseconds *)

(** How a computation ends: it returns to its caller, or it ends the
    whole process through [os.Exit]. *)
Inductive outcome (A : Type) : Type :=
| Ret (a : A)
| Exit (code : Z).
Arguments Ret {A} a.
Arguments Exit {A} code.

Definition M (A : Type) : Type := (list event * outcome A)%type.

Definition ret {A} (a : A) : M A := ([], Ret a).

Definition bind {A B} (m : M A) (k : A -> M B) : M B :=
  match m with
  | (t, Ret a) => let '(t', o) := k a in (t ++ t', o)
  | (t, Exit c) => (t, Exit c)
  end.

Definition emit (e : event) : M unit := ([e], Ret tt).
Definition os_Exit {A} (code : Z) : M A := ([], Exit code).

Notation "x <- c1 ;; c2" := (bind c1 (fun x => c2))
  (at level 61, c1 at next level, right associativity).
Notation "c1 ;;; c2" := (bind c1 (fun _ => c2))
  (at level 61, right associativity).

Definition trace {A} (m : M A) : list event := fst m.
Definition result {A} (m : M A) : outcome A := snd m.

(** ** Global variables of the program *)

Definition jottiUploadURL : string := "https://virusscan.jotti.org/en-US/submit-file".
(** [jottiChecksumURL] is the format ["https://virusscan.jotti.org/en-US/search/hash/%s"];
    [fmt.Sprintf] of it with one string argument appends that string. *)
Definition jottiChecksumURL (checksum : string) : string :=
  "https://virusscan.jotti.org/en-US/search/hash/" ++ checksum.
Definition maxUploadSize : Z := 250 * 1024 * 1024.
Definition http_StatusOK : Z := 200.

(** ** Remote lookup: [checkJottiSearch] *)

(** What reading the response body gives. *)
Inductive bodyResult : Type :=
| BodyErr (e : error)
| Body (b : string).

(** What [httpClient.Get] gives: a transport error, or a response with
    its status code and its body. *)
Inductive httpResult : Type :=
| NetError (e : error)
| Response (status : Z) (body : bodyResult).

(** The Go result triple [(bool, string, error)]. *)
Definition searchResult : Type := (bool * string * option error)%type.

Definition rateLimitMarker : string := "Too many requests".
Definition notFoundMarker : string := "Hash not found".

Definition checkJottiSearch (checksum : string) (resp : httpResult) : M searchResult :=
  let searchURL := jottiChecksumURL checksum in
  emit (EvHttpGet searchURL) ;;;
  match resp with
  | NetError e => ret (false, "", Some e)
  | Response status body =>
      if status =? http_StatusOK then
        match body with
        | BodyErr e => ret (false, "", Some e)
        | Body body =>
            (if contains body rateLimitMarker then
               emit (EvStderr ("Rate limited by Jotti. Please try again in a few minutes." ++ LF)) ;;;
               os_Exit 2
             else ret tt) ;;;
            if contains body notFoundMarker then ret (false, searchURL, None)
            else ret (true, searchURL, None)
        end
      else
        ret (false, "", Some (Err ("unexpected response status: " ++ itoa status)))
  end.

(** The three-way reading of the result triple, as [main] branches on it:
    [err != nil] first, then [found]. *)
Inductive LookupResult : Type :=
| Found (url : string)
| NotFound (url : string)
| LookupError (e : error).

Definition lookupResult (r : searchResult) : LookupResult :=
  match r with
  | (_, _, Some e) => LookupError e
  | (true, url, None) => Found url
  | (false, url, None) => NotFound url
  end.

(** ** IEEE 754 binary64, the Go type [float64]

    The operations are those of the reference specification [SpecFloat]
    at precision 53 and maximal exponent 1024, rounding to nearest, ties
    to even. *)

Module Float64.

Definition prec : Z := 53.
Definition emax : Z := 1024.
Definition float64 : Type := spec_float.

(** The conversion [float64(z)] of an integer. *)
Definition of_int (z : Z) : float64 := binary_normalize prec emax z 0 false.
Definition mul : float64 -> float64 -> float64 := SFmul prec emax.
Definition div : float64 -> float64 -> float64 := SFdiv prec emax.

(** The integer part of a finite value, the fraction discarded
    (truncation toward zero). *)
Definition trunc (x : float64) : option Z :=
  match x with
  | S754_zero _ => Some 0
  | S754_finite s m e =>
      let a := if 0 <=? e then Z.shiftl (Zpos m) e else Z.shiftr (Zpos m) (- e) in
      Some (if s then - a else a)
  | S754_infinity _ | S754_nan => None
  end.

(** The conversion [int(x)] on a 64-bit platform.  Where the value does
    not fit (or is not a number) the language leaves the result to the
    implementation: [indef] stands for it. *)
Definition to_int (indef : Z) (x : float64) : Z :=
  match trunc x with
  | Some z => if (- 2 ^ 63 <=? z) && (z <? 2 ^ 63) then z else indef
  | None => indef
  end.

(** The exact value of [m * 2^e * scale], rounded to the nearest integer,
    ties to even: the decimal rounding of package [strconv]. *)
Definition scaled_round (m : positive) (e : Z) (scale : Z) : Z :=
  if 0 <=? e then Zpos m * 2 ^ e * scale
  else
    let num := Zpos m * scale in
    let den := 2 ^ (- e) in
    let q := num / den in
    let r := num mod den in
    match 2 * r ?= den with
    | Lt => q
    | Gt => q + 1
    | Eq => if Z.even q then q else q + 1
    end.

Definition digit (z : Z) : ascii := ascii_of_nat (48 + Z.to_nat z).

Definition signString (s : bool) : string := if s then "-" else "".

(** The verb [%.2f]. *)
Definition fmt_2f (x : float64) : string :=
  match x with
  | S754_nan => "NaN"
  | S754_infinity s => if s then "-Inf" else "+Inf"
  | S754_zero s => signString s ++ "0.00"
  | S754_finite s m e =>
      let c := scaled_round m e 100 in
      signString s ++ itoa (c / 100) ++ "."
        ++ String (digit (c mod 100 / 10)) (String (digit (c mod 10)) "")
  end.

Fixpoint spaces (n : nat) : string :=
  match n with
  | O => ""
  | S n' => String " " (spaces n')
  end.

Definition padLeft (width : nat) (s : string) : string :=
  spaces (width - String.length s) ++ s.

(** The verb [%6.2f]. *)
Definition fmt_6_2f (x : float64) : string := padLeft 6 (fmt_2f x).

End Float64.

(** ** The progress-tracking reader *)

Module Progress.

(** What one call of [Read] returns: the count [n], the [n] bytes put
    into the caller's buffer, and the error. *)
Record readResult : Type := mkReadResult {
  rr_n : Z;
  rr_data : list byte;
  rr_err : option error
}.

(** The interface [io.Reader]: a call of [Read] with a buffer of length
    [blen] gives the reader's next state and what the call returns. *)
Class Reader (R : Type) : Type :=
  Read : R -> nat -> R * readResult.

(** [bytes.Reader]: the slice and the current reading index. *)
Record bytesReader : Type := mkBytesReader {
  br_s : list byte;
  br_i : Z
}.

Definition bytes_NewReader (b : list byte) : bytesReader :=
  {| br_s := b; br_i := 0 |}.

#[export] Instance bytesReader_Read : Reader bytesReader := fun rd blen =>
  if Z.of_nat (List.length (br_s rd)) <=? br_i rd then
    (rd, mkReadResult 0 [] (Some io_EOF))
  else
    let data := firstn blen (skipn (Z.to_nat (br_i rd)) (br_s rd)) in
    let n := Z.of_nat (List.length data) in
    (mkBytesReader (br_s rd) (br_i rd + n), mkReadResult n data None).

(** [time.Time] as nanoseconds since the zero time; [t.Sub(u)] saturates
    at the bounds of [time.Duration]. *)
Definition time_Sub (t u : Z) : Z :=
  Z.max (- 2 ^ 63) (Z.min (2 ^ 63 - 1) (t - u)).
Definition time_Millisecond : Z := 1000000.

Record progressReader (R : Type) : Type := mkProgressReader {
  r : R;
  total : Z;
  read : Z;
  lastTick : Z
}.
Arguments mkProgressReader {R} _ _ _ _.
Arguments r {R} _.
Arguments total {R} _.
Arguments read {R} _.
Arguments lastTick {R} _.

Definition progressBarWidth : Z := 20.

Definition indices (n : Z) : list Z := map Z.of_nat (seq 0 (Z.to_nat n)).

(** The loop that fills the bar array, cell by cell. *)
Definition barCells (filled : Z) : list ascii :=
  map (fun i => if i <? filled then "="%char else " "%char) (indices progressBarWidth).

Section Render.
(** The implementation-defined result of [int(x)] on a value out of range. *)
Variable indef : Z.
Context {R : Type}.

Definition percentOf (p : progressReader R) : Float64.float64 :=
  Float64.div (Float64.mul (Float64.of_int (read p)) (Float64.of_int 100))
              (Float64.of_int (total p)).

Definition filledOf (p : progressReader R) : Z :=
  let filled :=
    Float64.to_int indef
      (Float64.div (percentOf p) (Float64.of_int (100 / progressBarWidth))) in
  if filled >? progressBarWidth then progressBarWidth else filled.

Definition render (p : progressReader R) : string :=
  CR ++ "Progress: [" ++ string_of_list_ascii (barCells (filledOf p)) ++ "] "
     ++ Float64.fmt_6_2f (percentOf p) ++ "%".

Definition renderDone (p : progressReader R) : string :=
  CR ++ "Progress: [" ++ string_of_list_ascii (barCells progressBarWidth)
     ++ "] 100.00% (sent) - waiting response...".

Context `{Reader R}.

(** [progressReader.Read]: one call with a buffer of length [blen],
    the clock reading [now] being what [time.Now] gives inside it. *)
Definition progressReader_Read (p : progressReader R) (blen : nat) (now : Z)
  : progressReader R * readResult * list event :=
  let '(r', res) := Read (r p) blen in
  let p0 := mkProgressReader r' (total p) (read p) (lastTick p) in
  let '(p1, out1) :=
    if rr_n res >? 0 then
      let p' := mkProgressReader r' (total p0) (wrap64 (read p0 + rr_n res)) (lastTick p0) in
      if (150 * time_Millisecond <=? time_Sub now (lastTick p')) || (read p' =? total p') then
        (mkProgressReader r' (total p') (read p') now, [EvStderr (render p')])
      else (p', [])
    else (p0, []) in
  let out2 := if is_EOF (rr_err res) then [EvStderr (renderDone p1)] else [] in
  (p1, res, out1 ++ out2).

(** A run of [Read] calls, as the HTTP transport issues them: each call
    comes with its buffer length and its clock reading. *)
Fixpoint readCalls (p : progressReader R) (calls : list (nat * Z))
  : progressReader R * list readResult * list event :=
  match calls with
  | [] => (p, [], [])
  | (blen, now) :: calls' =>
      let '(p1, res, out) := progressReader_Read p blen now in
      let '(p2, ress, outs) := readCalls p1 calls' in
      (p2, res :: ress, out ++ outs)
  end.
End Render.

End Progress.
Import Progress.

(** ** SHA-1 ([crypto/sha1]) and hexadecimal encoding ([encoding/hex]) *)

Module Sha1.

Definition add32 (a b : Z) : Z := (a + b) mod 2 ^ 32.
Definition not32 (a : Z) : Z := Z.lxor a (2 ^ 32 - 1).
Definition rotl32 (n x : Z) : Z :=
  Z.lor (Z.shiftl x n mod 2 ^ 32) (Z.shiftr x (32 - n)).

Definition byteZ (b : byte) : Z := Z.of_N (Byte.to_N b).
Definition Zbyte (z : Z) : byte :=
  match Byte.of_N (Z.to_N (z mod 256)) with
  | Some b => b
  | None => x00
  end.

(** The message followed by the bit 1, by zeros up to 56 modulo 64, and
    by its length in bits on eight bytes, most significant first. *)
Definition bigEndian (nbytes : nat) (z : Z) : list Z :=
  map (fun k => Z.shiftr z (8 * Z.of_nat k) mod 256) (rev (seq 0 nbytes)).

Definition pad (msg : list Z) : list Z :=
  let len := Z.of_nat (List.length msg) in
  msg ++ [128] ++ repeat 0 (Z.to_nat ((55 - len) mod 64))
      ++ bigEndian 8 ((8 * len) mod 2 ^ 64).

Fixpoint words (bs : list Z) : list Z :=
  match bs with
  | b0 :: b1 :: b2 :: b3 :: rest =>
      (b0 * 2 ^ 24 + b1 * 2 ^ 16 + b2 * 2 ^ 8 + b3) :: words rest
  | _ => []
  end.

(** The message schedule, most recent word first. *)
Fixpoint schedule (n : nat) (ws : list Z) : list Z :=
  match n with
  | O => ws
  | S n' =>
      let w := rotl32 1 (Z.lxor (Z.lxor (nth 2 ws 0) (nth 7 ws 0))
                                (Z.lxor (nth 13 ws 0) (nth 15 ws 0))) in
      schedule n' (w :: ws)
  end.

Definition state : Type := (Z * Z * Z * Z * Z)%type.

Definition init : state :=
  (0x67452301, 0xEFCDAB89, 0x98BADCFE, 0x10325476, 0xC3D2E1F0).

Definition round (st : state) (tw : nat * Z) : state :=
  let '(a, b, c, d, e) := st in
  let '(t, w) := tw in
  let '(f, k) :=
    if (t <? 20)%nat then (Z.lor (Z.land b c) (Z.land (not32 b) d), 0x5A827999)
    else if (t <? 40)%nat then (Z.lxor (Z.lxor b c) d, 0x6ED9EBA1)
    else if (t <? 60)%nat then
      (Z.lor (Z.lor (Z.land b c) (Z.land b d)) (Z.land c d), 0x8F1BBCDC)
    else (Z.lxor (Z.lxor b c) d, 0xCA62C1D6) in
  let temp := add32 (add32 (add32 (add32 (rotl32 5 a) f) e) k) w in
  (temp, a, rotl32 30 b, c, d).

Definition block (h : state) (ws : list Z) : state :=
  let sched := rev (schedule 64 (rev ws)) in
  let '(a, b, c, d, e) := fold_left round (combine (seq 0 80) sched) h in
  let '(h0, h1, h2, h3, h4) := h in
  (add32 h0 a, add32 h1 b, add32 h2 c, add32 h3 d, add32 h4 e).

Fixpoint blocks (fuel : nat) (h : state) (ws : list Z) : state :=
  match fuel, ws with
  | S fuel', _ :: _ => blocks fuel' (block h (firstn 16 ws)) (skipn 16 ws)
  | _, _ => h
  end.

(** The 20-byte digest of a message. *)
Definition sum (msg : list byte) : list byte :=
  let ws := words (pad (map byteZ msg)) in
  let '(h0, h1, h2, h3, h4) := blocks (List.length ws) init ws in
  map Zbyte (bigEndian 4 h0 ++ bigEndian 4 h1 ++ bigEndian 4 h2
               ++ bigEndian 4 h3 ++ bigEndian 4 h4).

End Sha1.

Definition hextable : string := "0123456789abcdef".

Definition hexDigit (n : N) : ascii :=
  match String.get (N.to_nat n) hextable with
  | Some c => c
  | None => "0"%char
  end.

(** [hex.EncodeToString]: two characters of [hextable] for each byte,
    the high half first. *)
Fixpoint hex_EncodeToString (src : list byte) : string :=
  match src with
  | [] => ""
  | v :: rest =>
      String (hexDigit (N.shiftr (Byte.to_N v) 4))
        (String (hexDigit (N.land (Byte.to_N v) 15)) (hex_EncodeToString rest))
  end.

(** ** The checksum computer: [calculateSHA1Checksum] *)

(** What opening a path and reading the file to its end gives. *)
Inductive fileObs : Type :=
| OpenErr (e : error)
| ReadErr (e : error)
| Contents (bs : list byte).

Definition calculateSHA1Checksum (filePath : string) (f : fileObs)
  : M (string * option error) :=
  emit (EvOpen filePath) ;;;
  match f with
  | OpenErr e => ret ("", Some e)
  | ReadErr e => ret ("", Some e)
  | Contents bs => ret (hex_EncodeToString (Sha1.sum bs), None)
  end.

(** ** The upload client and the orchestrator *)

(** What the outside world answers while one file is processed.  Each
    field is consulted at most once, by the call named beside it. *)
Record fileEnv : Type := mkFileEnv {
  fe_stat : error + (bool * Z);      (* os.Stat: an error, or IsDir and Size *)
  fe_hashFile : fileObs;             (* the file as calculateSHA1Checksum reads it *)
  fe_lookup : httpResult;            (* httpClient.Get *)
  fe_uploadFile : fileObs;           (* the file as uploadFile reads it *)
  fe_bodyReads : list (nat * Z);     (* the Read calls of the transport on the body *)
  fe_post : error + Z                (* httpClient.Do: an error, or the status code *)
}.

(** Which exit of the loop body a file takes. *)
Inductive terminal : Type :=
| StatError
| SkippedDirectory
| SkippedOversize
| ChecksumError
| LookupFailed
| AlreadyFound
| UploadError
| Uploaded.

Fixpoint emitAll (es : list event) : M unit :=
  match es with
  | [] => ret tt
  | e :: es' => emit e ;;; emitAll es'
  end.

Section Program.

(** The implementation-defined result of [int(x)] out of range. *)
Variable indef : Z.
(** [filepath.Base]. *)
Variable filepath_Base : string -> string.
(** The bytes a [multipart.Writer] holds once closed, for one form file
    of the given field name, file name and content. *)
Variable multipartForm : string -> string -> list byte -> list byte.

(** [uploadFile].  The multipart writer writes into a [bytes.Buffer],
    whose writes do not fail, and [http.NewRequest] is given a constant
    method and URL: of the error returns of the source, those of
    [os.Open], of the copy of the file and of [httpClient.Do] can be
    taken, and they are the ones modelled.  The transport reads the body
    through [progressReader.Read] while the request is sent. *)
Definition uploadFile (filePath : string) (env : fileEnv)
  : M (string * option error) :=
  emit (EvOpen filePath) ;;;
  match fe_uploadFile env with
  | OpenErr e => ret ("", Some e)
  | ReadErr e => ret ("", Some e)
  | Contents bs =>
      let raw := multipartForm "sample-file[]" (filepath_Base filePath) bs in
      let pr := mkProgressReader (bytes_NewReader raw) (Z.of_nat (List.length raw)) 0 0 in
      emit (EvHttpPost jottiUploadURL (Z.of_nat (List.length raw))) ;;;
      emitAll (snd (readCalls indef pr (fe_bodyReads env))) ;;;
      match fe_post env with
      | inl e => ret ("", Some e)
      | inr status =>
          if negb (status =? http_StatusOK) then
            ret ("", Some (Err ("received non-200 response status: " ++ itoa status)))
          else ret ("", None)
      end
  end.

(** The body of the loop of [main] for one file.  Every [continue] and
    the fall through the end of the body return the exit taken. *)
Definition processFile (filePath : string) (env : fileEnv) : M terminal :=
  emit (EvStat filePath) ;;;
  match fe_stat env with
  | inl err =>
      emit (EvLog ("Error stat " ++ filePath ++ ": " ++ errorString err ++ LF)) ;;;
      ret StatError
  | inr (isDir, size) =>
      if isDir then
        emit (EvLog ("Skipping directory: " ++ filePath ++ LF)) ;;;
        ret SkippedDirectory
      else if size >? maxUploadSize then
        emit (EvLog ("Skipping " ++ filePath ++ ": file size " ++ itoa size
                       ++ " exceeds 250MB limit" ++ LF)) ;;;
        ret SkippedOversize
      else
        c <- calculateSHA1Checksum filePath (fe_hashFile env) ;;
        match c with
        | (_, Some err) =>
            emit (EvLog ("Error calculating SHA1 checksum for " ++ filePath ++ ": "
                           ++ errorString err ++ LF)) ;;;
            ret ChecksumError
        | (checksum, None) =>
            emit (EvStdout ("SHA1 Checksum: " ++ checksum ++ LF)) ;;;
            s <- checkJottiSearch checksum (fe_lookup env) ;;
            match s with
            | (_, _, Some err) =>
                emit (EvLog ("Error checking Jotti's malware scan: "
                               ++ errorString err ++ LF)) ;;;
                ret LookupFailed
            | (found, jottiURL, None) =>
                if found then
                  emit (EvStdout ("File " ++ filePath ++ " found on Jotti:" ++ LF
                                    ++ jottiURL ++ LF)) ;;;
                  ret AlreadyFound
                else
                  emit (EvStdout ("Uploading " ++ filePath ++ ": ")) ;;;
                  u <- uploadFile filePath env ;;
                  match u with
                  | (_, Some err) =>
                      emit (EvLog ("Error: " ++ errorString err ++ LF)) ;;;
                      ret UploadError
                  | (_, None) =>
                      emit (EvStdout ("OK" ++ LF)) ;;;
                      emit (EvStdout (jottiChecksumURL checksum ++ LF)) ;;;
                      emit (EvSleep 1000) ;;;
                      ret Uploaded
                  end
            end
        end
  end.

(** The loop over [os.Args[1:]]: the paths, each with what the world
    answers for it; the exits taken are collected. *)
Fixpoint processFiles (files : list (string * fileEnv)) : M (list terminal) :=
  match files with
  | [] => ret []
  | (filePath, env) :: rest =>
      t <- processFile filePath env ;;
      ts <- processFiles rest ;;
      ret (t :: ts)
  end.

Definition versionFunc : M unit :=
  emit (EvStderr ("Jotti Uploader v1.0.0; 2025-08-27" ++ LF)) ;;;
  emit (EvStderr ("https://github.com/cyclone-github/jotti" ++ LF)).

Definition helpFunc : M unit :=
  versionFunc ;;;
  emit (EvStderr (LF ++ "Example Usage:" ++ LF
                    ++ LF ++ "./jotti {file_to_scan}" ++ LF
                    ++ LF ++ "./jotti -help" ++ LF
                    ++ LF ++ "./jotti -version" ++ LF ++ LF)) ;;;
  os_Exit 0.

(** [main]: the three flags as [flag.Parse] leaves them, then
    [os.Args[1:]].  The run ends with the exits taken by the files, or
    with the status given to [os.Exit] ([log.Fatal] exits with 1).  What
    package [flag] does by itself on a malformed command line is not part
    of the program's text and is left out. *)
Definition main (help version cyclone : bool) (files : list (string * fileEnv))
  : M (list terminal) :=
  (if version then versionFunc ;;; os_Exit 0 else ret tt) ;;;
  (if cyclone then emit (EvStderr ("Coded by cyclone ;)" ++ LF)) ;;; os_Exit 0
   else ret tt) ;;;
  (if (Z.of_nat (List.length files) + 1 <? 2) then
     emit (EvLog ("Usage: ./jotti <file_to_scan>" ++ LF)) ;;; os_Exit 1
   else ret tt) ;;;
  (if help then helpFunc else ret tt) ;;;
  processFiles files.

End Program.

(** ** Notions used to state the properties *)

(** What [checkJottiSearch] does before it ends the process. *)
Definition rateLimitTrace (checksum : string) : list event :=
  [EvHttpGet (jottiChecksumURL checksum);
   EvStderr ("Rate limited by Jotti. Please try again in a few minutes." ++ LF)].

(** The underlying source read directly, with the same buffer lengths. *)
Fixpoint sourceCalls {R : Type} `{Reader R} (src : R) (lens : list nat)
  : R * list readResult :=
  match lens with
  | [] => (src, [])
  | blen :: lens' =>
      let '(src1, res) := Read src blen in
      let '(src2, ress) := sourceCalls src1 lens' in
      (src2, res :: ress)
  end.

(** The progress reader that [uploadFile] builds over the encoded body. *)
Definition uploadReader (raw : list byte) : progressReader bytesReader :=
  mkProgressReader (bytes_NewReader raw) (Z.of_nat (List.length raw)) 0 0.

(** A [bytes.Reader] is exhausted when its index has reached the end. *)
Definition exhausted (rd : bytesReader) : Prop :=
  Z.of_nat (List.length (br_s rd)) <= br_i rd.

(** What holds of the reader of [uploadFile] between any two calls. *)
Definition readerInv (raw : list byte) (p : progressReader bytesReader) : Prop :=
  br_s (r p) = raw
  /\ 0 <= br_i (r p) <= Z.of_nat (List.length raw)
  /\ read p = br_i (r p)
  /\ total p = Z.of_nat (List.length raw).

Definition sumCounts (ress : list readResult) : Z :=
  fold_right (fun res acc => rr_n res + acc) 0 ress.

(** The terminal line, and how often it and end-of-stream occur. *)
Definition doneLine : string :=
  CR ++ "Progress: [====================] 100.00% (sent) - waiting response...".

Definition isDone (e : event) : bool :=
  match e with
  | EvStderr s => String.eqb s doneLine
  | _ => false
  end.

Definition countDone (es : list event) : nat := List.length (filter isDone es).

Definition countEOF (ress : list readResult) : nat :=
  List.length (filter (fun res => is_EOF (rr_err res)) ress).

Fixpoint lastChar (s : string) : option ascii :=
  match s with
  | EmptyString => None
  | String c s' =>
      match lastChar s' with
      | Some d => Some d
      | None => Some c
      end
  end.

(** The floor of the exact value of a finite [float64]. *)
Definition float_floor (x : Float64.float64) : option Z :=
  match x with
  | S754_zero _ => Some 0
  | S754_finite s m e =>
      let v := if s then Zneg m else Zpos m in
      Some (if 0 <=? e then v * 2 ^ e else v / 2 ^ (- e))
  | S754_infinity _ | S754_nan => None
  end.

Definition isFinite (x : Float64.float64) : bool :=
  match x with
  | S754_zero _ | S754_finite _ _ _ => true
  | S754_infinity _ | S754_nan => false
  end.

(** A bar of [k] filled cells out of [progressBarWidth]. *)
Definition barOf (k : nat) : string :=
  string_of_list_ascii
    (repeat "="%char k ++ repeat " "%char (Z.to_nat progressBarWidth - k)).

Definition isDigit (c : ascii) : bool :=
  let n := nat_of_ascii c in ((48 <=? n) && (n <=? 57))%nat.

Definition isLowerHex (c : ascii) : bool :=
  let n := nat_of_ascii c in
  (((48 <=? n) && (n <=? 57)) || ((97 <=? n) && (n <=? 102)))%nat.

Definition isSleep (e : event) : bool :=
  match e with
  | EvSleep _ => true
  | _ => false
  end.

(** Opening a file, or any request over the network. *)
Definition isOpenOrNetwork (e : event) : bool :=
  match e with
  | EvOpen _ | EvHttpGet _ | EvHttpPost _ _ => true
  | _ => false
  end.

(** The mantissa and the exponent after [shr_fexp]. *)
Definition shiftF (m e : Z) : Z * Z :=
  let n := fexp 53 1024 (Zdigits2 m + e) - e in
  if 0 <? n then (m / 2 ^ n, e + n) else (m, e).

(** A finite float of the given sign whose magnitude (digits of the
    mantissa plus exponent) lies in a range. *)
Definition finiteIn (x : spec_float) (s : bool) (lo hi : Z) : Prop :=
  exists m e, x = S754_finite s m e /\ lo <= Zdigits2 (Z.pos m) + e <= hi.

(** Kinds of events, and how often a kind occurs in a trace. *)
Definition isStat (e : event) : bool :=
  match e with EvStat _ => true | _ => false end.

Definition isOpen (e : event) : bool :=
  match e with EvOpen _ => true | _ => false end.

Definition isGet (e : event) : bool :=
  match e with EvHttpGet _ => true | _ => false end.

Definition isPost (e : event) : bool :=
  match e with EvHttpPost _ _ => true | _ => false end.

(** A line on stderr other than the terminal line: a progress render. *)
Definition isRender (e : event) : bool :=
  match e with
  | EvStderr s => negb (String.eqb s doneLine)
  | _ => false
  end.

Definition countEv (f : event -> bool) (es : list event) : nat :=
  List.length (filter f es).

Definition isUploaded (t : terminal) : bool :=
  match t with Uploaded => true | _ => false end.

(** A status-200 response whose body carries the rate-limit marker. *)
Definition rateLimited (resp : httpResult) : bool :=
  match resp with
  | Response status (Body body) =>
      (status =? http_StatusOK) && contains body rateLimitMarker
  | _ => false
  end.

(** A status-200 response that says the hash is unknown. *)
Definition saysNotFound (resp : httpResult) : bool :=
  match resp with
  | Response status (Body body) =>
      (status =? http_StatusOK) && negb (contains body rateLimitMarker)
        && contains body notFoundMarker
  | _ => false
  end.

(** The bytes handed out by a run of calls, in order. *)
Definition delivered (ress : list readResult) : list byte :=
  List.concat (map rr_data ress).

(** The bytes a reader over [raw] has handed out so far. *)
Definition consumed (raw : list byte) (p : progressReader bytesReader) : list byte :=
  firstn (Z.to_nat (br_i (r p))) raw.

(** An argument that is a file of exactly the size limit, unknown to the
    service, and whose upload is accepted. *)
Definition sampleUpload : fileEnv :=
  mkFileEnv (inr (false, maxUploadSize)) (Contents [x61; x62; x63])
            (Response 200 (Body "<p>Hash not found</p>")) (Contents [x61; x62; x63])
            [(8%nat, 1000000000); (8%nat, 1000000001)] (inr 200).

(** * Properties *)

(** ** [strings.Contains] finds exactly the occurrences *)

Lemma hasPrefix_spec (s p : string) :
  hasPrefix s p = true <-> exists rest, s = (p ++ rest)%string.
Proof.
  revert s; induction p as [|c p IH]; intros s; simpl.
  - split; [intros _; now exists s | reflexivity].
  - destruct s as [|d s].
    + split; [discriminate | intros [rest H]; discriminate].
    + rewrite andb_true_iff, Ascii.eqb_eq, IH. split.
      * intros [-> [rest ->]]. now exists rest.
      * intros [rest H]. injection H as -> ->. split; [reflexivity | now exists rest].
Qed.

Lemma contains_spec (s sub : string) :
  contains s sub = true <-> exists a b, s = (a ++ sub ++ b)%string.
Proof.
  induction s as [|d s IH]; simpl.
  - rewrite orb_false_r, hasPrefix_spec. split.
    + intros [rest H]. now exists ""%string, rest.
    + intros [a [b H]]. destruct a; [now exists b | discriminate].
  - rewrite orb_true_iff, hasPrefix_spec, IH. split.
    + intros [[rest H] | [a [b H]]].
      * now exists ""%string, rest.
      * exists (String d a), b. simpl. now rewrite H.
    + intros [[|c a] [b H]].
      * left. now exists b.
      * right. simpl in H. injection H as _ H. now exists a, b.
Qed.

(** ** The effect monad *)

Lemma bind_Exit {A B} (m : M A) (k : A -> M B) (c : Z) :
  result m = Exit c -> bind m k = (trace m, Exit c).
Proof. destruct m as [t [a|c']]; simpl; intros H; [discriminate | congruence]. Qed.

Lemma bind_Ret {A B} (m : M A) (k : A -> M B) (a : A) :
  result m = Ret a ->
  bind m k = (trace m ++ trace (k a), result (k a)).
Proof.
  destruct m as [t [a'|c']]; simpl; intros H; [|discriminate].
  injection H as ->. now destruct (k a).
Qed.

Lemma result_bind {A B} (m : M A) (k : A -> M B) :
  result (bind m k) =
  match result m with
  | Ret a => result (k a)
  | Exit c => Exit c
  end.
Proof. destruct m as [t [a|c]]; simpl; [now destruct (k a) | reflexivity]. Qed.

Lemma trace_bind {A B} (m : M A) (k : A -> M B) :
  trace (bind m k) =
  trace m ++ match result m with
             | Ret a => trace (k a)
             | Exit _ => []
             end.
Proof.
  destruct m as [t [a|c]]; simpl; [now destruct (k a) | now rewrite app_nil_r].
Qed.

Lemma run_eta {A} (m : M A) : m = (trace m, result m).
Proof. now destruct m. Qed.

Lemma emitAll_run (es : list event) : emitAll es = (es, Ret tt).
Proof.
  induction es as [|e es IH]; [reflexivity|].
  simpl. rewrite IH. reflexivity.
Qed.

Create Rewrite HintDb run.
#[local] Hint Rewrite @result_bind @trace_bind emitAll_run : run.

#[local] Arguments Sha1.sum : simpl never.
#[local] Arguments itoa : simpl never.
#[local] Arguments append : simpl never.

Ltac run_simpl :=
  repeat (autorewrite with run; cbn [result trace emit ret os_Exit fst snd app]).

(** ** The remote lookup *)

Lemma checkJottiSearch_rate_limited (checksum body : string) :
  contains body rateLimitMarker = true ->
  checkJottiSearch checksum (Response http_StatusOK (Body body))
  = (rateLimitTrace checksum, Exit 2).
Proof.
  intros H. unfold checkJottiSearch. simpl. now rewrite H.
Qed.

Lemma checkJottiSearch_not_limited (checksum body : string) :
  contains body rateLimitMarker = false ->
  checkJottiSearch checksum (Response http_StatusOK (Body body))
  = ([EvHttpGet (jottiChecksumURL checksum)],
     Ret (negb (contains body notFoundMarker), jottiChecksumURL checksum, None)).
Proof.
  intros H. unfold checkJottiSearch. simpl. rewrite H. simpl.
  now destruct (contains body notFoundMarker).
Qed.

Lemma checkJottiSearch_bad_status (checksum : string) (status : Z) (body : bodyResult) :
  status <> http_StatusOK ->
  checkJottiSearch checksum (Response status body)
  = ([EvHttpGet (jottiChecksumURL checksum)],
     Ret (false, ""%string,
          Some (Err ("unexpected response status: " ++ itoa status)))).
Proof.
  intros H. unfold checkJottiSearch. simpl.
  destruct (Z.eqb_spec status http_StatusOK); [contradiction | reflexivity].
Qed.

(** ** The loop of [main] *)

Section ProgramFacts.

Variable indef : Z.
Variable filepath_Base : string -> string.
Variable multipartForm : string -> string -> list byte -> list byte.

Local Abbreviation uploadFile := (uploadFile indef filepath_Base multipartForm).
Local Abbreviation processFile := (processFile indef filepath_Base multipartForm).
Local Abbreviation processFiles := (processFiles indef filepath_Base multipartForm).
Local Abbreviation main := (main indef filepath_Base multipartForm).

Lemma uploadFile_returns (filePath : string) (env : fileEnv) :
  exists u, result (uploadFile filePath env) = Ret u.
Proof.
  unfold uploadFile.
  destruct (fe_uploadFile env); run_simpl; eauto.
  destruct (fe_post env) as [e|status]; run_simpl; eauto.
  destruct (negb (status =? http_StatusOK)); run_simpl; eauto.
Qed.

(** The only way out of the process from inside the loop body is the
    rate-limit exit of the lookup, with status 2. *)
Lemma processFile_Exit_inv (filePath : string) (env : fileEnv) (c : Z) :
  result (processFile filePath env) = Exit c ->
  c = 2 /\ exists body,
    fe_lookup env = Response http_StatusOK (Body body) /\
    contains body rateLimitMarker = true.
Proof.
  unfold processFile, calculateSHA1Checksum.
  destruct (fe_stat env) as [e|[isDir size]]; run_simpl; [discriminate|].
  destruct isDir; run_simpl; [discriminate|].
  destruct (size >? maxUploadSize); run_simpl; [discriminate|].
  destruct (fe_hashFile env); run_simpl; try discriminate.
  unfold checkJottiSearch.
  destruct (fe_lookup env) as [e|status [e|body]]; run_simpl; try discriminate.
  - destruct (status =? http_StatusOK); run_simpl; discriminate.
  - destruct (Z.eqb_spec status http_StatusOK) as [->|]; run_simpl; [|discriminate].
    destruct (contains body rateLimitMarker) eqn:Hrl; run_simpl.
    + intros H; injection H as <-. split; [reflexivity | now exists body].
    + destruct (contains body notFoundMarker); run_simpl; [|discriminate].
      fold (uploadFile filePath env).
      destruct (uploadFile_returns filePath env) as [[x [err|]] ->];
        run_simpl; discriminate.
Qed.

(** A file that passes the size check, hashes, and whose lookup is
    rate-limited ends the process with status 2. *)
Lemma processFile_rate_limited (filePath : string) (env : fileEnv)
      (size : Z) (bs : list byte) (body : string) :
  fe_stat env = inr (false, size) ->
  size <= maxUploadSize ->
  fe_hashFile env = Contents bs ->
  fe_lookup env = Response http_StatusOK (Body body) ->
  contains body rateLimitMarker = true ->
  processFile filePath env
  = ([EvStat filePath; EvOpen filePath;
      EvStdout ("SHA1 Checksum: " ++ hex_EncodeToString (Sha1.sum bs) ++ LF)]
       ++ rateLimitTrace (hex_EncodeToString (Sha1.sum bs)),
     Exit 2).
Proof.
  intros Hstat Hsize Hhash Hlook Hrl.
  rewrite (run_eta (processFile filePath env)).
  unfold processFile, calculateSHA1Checksum.
  rewrite Hstat, Hhash, Hlook.
  destruct (Z.gtb_spec size maxUploadSize) as [Hgt|_]; [lia|].
  run_simpl. rewrite (checkJottiSearch_rate_limited _ _ Hrl). reflexivity.
Qed.

Lemma processFiles_Exit_code (files : list (string * fileEnv)) (c : Z) :
  result (processFiles files) = Exit c -> c = 2.
Proof.
  induction files as [|[p env] rest IH]; simpl; [discriminate|].
  run_simpl. fold (processFile p env). fold (processFiles rest).
  destruct (result (processFile p env)) eqn:Hp.
  - run_simpl.
    destruct (result (processFiles rest)) eqn:Hr; run_simpl; [discriminate|].
    intros H; injection H as <-. now apply IH.
  - intros H; injection H as <-. now apply processFile_Exit_inv in Hp.
Qed.

(** Once a file ends the process, the files after it play no part. *)
Lemma processFiles_cut (before after : list (string * fileEnv))
      (filePath : string) (env : fileEnv) (c : Z) :
  result (processFile filePath env) = Exit c ->
  processFiles (before ++ (filePath, env) :: after)
  = processFiles (before ++ [(filePath, env)]).
Proof.
  intros Hexit. induction before as [|[p e] before IH]; simpl.
  - fold (processFile filePath env).
    now rewrite !(bind_Exit _ _ c Hexit).
  - fold (processFile p e).
    fold (processFiles (before ++ (filePath, env) :: after)).
    fold (processFiles (before ++ [(filePath, env)])).
    now rewrite IH.
Qed.

Lemma processFiles_Exit_at (before after : list (string * fileEnv))
      (filePath : string) (env : fileEnv) (c : Z) :
  result (processFile filePath env) = Exit c ->
  result (processFiles (before ++ (filePath, env) :: after)) = Exit 2.
Proof.
  intros Hexit.
  assert (exists c', result (processFiles (before ++ (filePath, env) :: after)) = Exit c')
    as [c' Hc'].
  { induction before as [|[p e] before IH]; simpl; run_simpl.
    - fold (processFile filePath env). rewrite Hexit. eauto.
    - fold (processFile p e).
      fold (processFiles (before ++ (filePath, env) :: after)).
      destruct (result (processFile p e)); [|eauto].
      run_simpl. destruct IH as [c' ->]. eauto. }
  rewrite Hc'. f_equal. now apply processFiles_Exit_code in Hc'.
Qed.

Lemma processFiles_Exit_inv (files : list (string * fileEnv)) (c : Z) :
  result (processFiles files) = Exit c ->
  exists filePath env body,
    In (filePath, env) files /\
    fe_lookup env = Response http_StatusOK (Body body) /\
    contains body rateLimitMarker = true.
Proof.
  induction files as [|[p env] rest IH]; simpl; [discriminate|].
  run_simpl. destruct (result (processFile p env)) eqn:Hp.
  - run_simpl. destruct (result (processFiles rest)) eqn:Hr; run_simpl; [discriminate|].
    intros H; injection H as <-.
    destruct (IH eq_refl) as (p' & env' & body & Hin & Hl & Hc).
    exists p', env', body. auto.
  - intros _. apply processFile_Exit_inv in Hp as [_ [body [Hl Hc]]].
    exists p, env, body. auto.
Qed.

Lemma main_no_flags (files : list (string * fileEnv)) :
  files <> [] -> main false false false files = processFiles files.
Proof.
  intros Hne. unfold main. destruct files as [|x rest]; [contradiction|].
  cbn [List.length]. rewrite Nat2Z.inj_succ.
  destruct (Z.ltb_spec (Z.succ (Z.of_nat (List.length rest)) + 1) 2) as [Hlt|_]; [lia|].
  cbn [bind ret app]. now destruct (processFiles (x :: rest)).
Qed.

Lemma main_Exit_2_inv (help version cyclone : bool) (files : list (string * fileEnv)) :
  result (main help version cyclone files) = Exit 2 ->
  result (processFiles files) = Exit 2.
Proof.
  unfold main, helpFunc, versionFunc.
  destruct version; run_simpl; [discriminate|].
  destruct cyclone; run_simpl; [discriminate|].
  destruct (Z.of_nat (List.length files) + 1 <? 2); run_simpl; [discriminate|].
  destruct help; run_simpl; [discriminate|]. auto.
Qed.

End ProgramFacts.

(** C3.  A lookup answered with status 200 and a body that contains the
    rate-limit marker ends the whole process at once with exit status 2:
    [checkJottiSearch] prints the notice and calls [os.Exit(2)]; the file
    being processed ends the run with that status; the run is the same
    whatever files follow in the argument list, so none of them is
    processed; and status 2 is distinct, since [main] ends with it only when
    some lookup was rate-limited (the flag and usage exits use 0 and 1). *)
Theorem rate_limit_terminates_process :
  forall (indef : Z) (filepath_Base : string -> string)
         (multipartForm : string -> string -> list byte -> list byte)
         (checksum body : string),
    contains body rateLimitMarker = true ->
    checkJottiSearch checksum (Response http_StatusOK (Body body))
      = (rateLimitTrace checksum, Exit 2)
    /\ (forall filePath env size bs before after,
          fe_stat env = inr (false, size) ->
          size <= maxUploadSize ->
          fe_hashFile env = Contents bs ->
          fe_lookup env = Response http_StatusOK (Body body) ->
          processFile indef filepath_Base multipartForm filePath env
            = ([EvStat filePath; EvOpen filePath;
                EvStdout ("SHA1 Checksum: " ++ hex_EncodeToString (Sha1.sum bs) ++ LF)]
                 ++ rateLimitTrace (hex_EncodeToString (Sha1.sum bs)),
               Exit 2)
          /\ processFiles indef filepath_Base multipartForm
               (before ++ (filePath, env) :: after)
             = processFiles indef filepath_Base multipartForm
                 (before ++ [(filePath, env)])
          /\ result (main indef filepath_Base multipartForm false false false
                       (before ++ (filePath, env) :: after)) = Exit 2)
    /\ (forall help version cyclone files,
          result (main indef filepath_Base multipartForm help version cyclone files)
            = Exit 2 ->
          exists filePath env body',
            In (filePath, env) files /\
            fe_lookup env = Response http_StatusOK (Body body') /\
            contains body' rateLimitMarker = true).
Proof.
  intros indef base mp checksum body Hrl. split; [|split].
  - now apply checkJottiSearch_rate_limited.
  - intros filePath env size bs before after Hstat Hsize Hhash Hlook.
    pose proof (processFile_rate_limited indef base mp filePath env size bs body
                  Hstat Hsize Hhash Hlook Hrl) as Hrun.
    assert (result (processFile indef base mp filePath env) = Exit 2) as Hexit
        by now rewrite Hrun.
    split; [exact Hrun|]. split.
    + now apply processFiles_cut with (c := 2).
    + rewrite main_no_flags by (now destruct before).
      now apply processFiles_Exit_at with (c := 2).
  - intros help version cyclone files Hmain.
    apply main_Exit_2_inv in Hmain.
    now apply processFiles_Exit_inv in Hmain.
Qed.

Lemma rate_limit_terminates_process_witness :
  contains "<h1>Too many requests</h1>" rateLimitMarker = true
  /\ checkJottiSearch "da39" (Response http_StatusOK (Body "<h1>Too many requests</h1>"))
     = (rateLimitTrace "da39", Exit 2).
Proof.
  split; [reflexivity|].
  exact (proj1 (rate_limit_terminates_process 0 (fun s => s) (fun _ _ bs => bs)
                  "da39" "<h1>Too many requests</h1>" eq_refl)).
Defined.

(** C10.  The rate-limit marker is looked for first: a status-200 body that
    contains both markers ends the process with exit status 2, and the
    lookup does not return the not-found result. *)
Theorem rate_limit_precedes_not_found :
  forall (checksum body : string),
    contains body rateLimitMarker = true ->
    contains body notFoundMarker = true ->
    result (checkJottiSearch checksum (Response http_StatusOK (Body body))) = Exit 2
    /\ result (checkJottiSearch checksum (Response http_StatusOK (Body body)))
       <> Ret (false, jottiChecksumURL checksum, None).
Proof.
  intros checksum body Hrl _.
  rewrite (checkJottiSearch_rate_limited _ _ Hrl). split; [reflexivity | discriminate].
Qed.

Lemma rate_limit_precedes_not_found_witness :
  contains "Hash not found. Too many requests" rateLimitMarker = true
  /\ contains "Hash not found. Too many requests" notFoundMarker = true
  /\ result (checkJottiSearch "da39"
               (Response http_StatusOK (Body "Hash not found. Too many requests")))
     = Exit 2.
Proof.
  split; [reflexivity|]. split; [reflexivity|].
  exact (proj1 (rate_limit_precedes_not_found "da39"
                  "Hash not found. Too many requests" eq_refl eq_refl)).
Defined.

(** C4, as stated, fails: a status-200 body that contains the not-found
    marker does not always give the not-found result.  When it also
    contains the rate-limit marker the lookup does not return at all. *)
Lemma not_found_marker_alone_insufficient :
  ~ (forall checksum body,
       contains body notFoundMarker = true ->
       result (checkJottiSearch checksum (Response http_StatusOK (Body body)))
       = Ret (false, jottiChecksumURL checksum, None)).
Proof.
  intros H.
  specialize (H "da39"%string "Hash not found. Too many requests"%string eq_refl).
  vm_compute in H. discriminate.
Qed.

(** C4, amended.  For every digest the lookup asks for the query URL made
    from it, and: with status 200 and a body that contains the not-found
    marker and not the rate-limit marker, it returns NotFound with the
    query URL; with status 200 and a body that contains neither marker,
    Found with the query URL; with any status other than 200, an error
    that carries the status code. *)
Theorem lookup_result_by_response :
  forall (checksum : string),
    (forall body,
        contains body rateLimitMarker = false ->
        contains body notFoundMarker = true ->
        checkJottiSearch checksum (Response http_StatusOK (Body body))
          = ([EvHttpGet (jottiChecksumURL checksum)],
             Ret (false, jottiChecksumURL checksum, None))
        /\ lookupResult (false, jottiChecksumURL checksum, None)
           = NotFound (jottiChecksumURL checksum))
    /\ (forall body,
        contains body rateLimitMarker = false ->
        contains body notFoundMarker = false ->
        checkJottiSearch checksum (Response http_StatusOK (Body body))
          = ([EvHttpGet (jottiChecksumURL checksum)],
             Ret (true, jottiChecksumURL checksum, None))
        /\ lookupResult (true, jottiChecksumURL checksum, None)
           = Found (jottiChecksumURL checksum))
    /\ (forall status body,
        status <> http_StatusOK ->
        checkJottiSearch checksum (Response status body)
          = ([EvHttpGet (jottiChecksumURL checksum)],
             Ret (false, "",
                  Some (Err ("unexpected response status: " ++ itoa status))))
        /\ lookupResult (false, "",
                         Some (Err ("unexpected response status: " ++ itoa status)))
           = LookupError (Err ("unexpected response status: " ++ itoa status))).
Proof.
  intros checksum. split; [|split].
  - intros body Hrl Hnf.
    rewrite (checkJottiSearch_not_limited _ _ Hrl), Hnf. now split.
  - intros body Hrl Hnf.
    rewrite (checkJottiSearch_not_limited _ _ Hrl), Hnf. now split.
  - intros status body Hst.
    rewrite (checkJottiSearch_bad_status _ _ _ Hst). now split.
Qed.

Lemma lookup_result_by_response_witness :
  (contains "<p>Hash not found</p>" rateLimitMarker = false
   /\ contains "<p>Hash not found</p>" notFoundMarker = true
   /\ result (checkJottiSearch "da39" (Response http_StatusOK (Body "<p>Hash not found</p>")))
      = Ret (false, jottiChecksumURL "da39", None))
  /\ (contains "<p>scan results</p>" rateLimitMarker = false
      /\ contains "<p>scan results</p>" notFoundMarker = false
      /\ result (checkJottiSearch "da39" (Response http_StatusOK (Body "<p>scan results</p>")))
         = Ret (true, jottiChecksumURL "da39", None))
  /\ (503 <> http_StatusOK
      /\ result (checkJottiSearch "da39" (Response 503 (Body "")))
         = Ret (false, "", Some (Err "unexpected response status: 503"))).
Proof.
  pose proof (lookup_result_by_response "da39") as [Hnf [Hf Herr]].
  split; [|split].
  - split; [reflexivity|]. split; [reflexivity|].
    now rewrite (proj1 (Hnf "<p>Hash not found</p>"%string eq_refl eq_refl)).
  - split; [reflexivity|]. split; [reflexivity|].
    now rewrite (proj1 (Hf "<p>scan results</p>"%string eq_refl eq_refl)).
  - assert (503 <> http_StatusOK) as Hne by discriminate.
    split; [exact Hne|].
    now rewrite (proj1 (Herr 503 (Body "") Hne)).
Defined.

(** ** The progress-tracking reader *)

Section ReaderFacts.

Variable indef : Z.
Context {R : Type} `{Reader R}.

(** One call through the wrapper is one call on the source, and its
    result is handed back as it came. *)
Lemma progressReader_Read_source (p : progressReader R) (blen : nat) (now : Z) :
  (r (fst (fst (progressReader_Read indef p blen now))),
   snd (fst (progressReader_Read indef p blen now)))
  = Read (r p) blen
  /\ total (fst (fst (progressReader_Read indef p blen now))) = total p.
Proof.
  unfold progressReader_Read.
  destruct (Read (r p) blen) as [r' res]. cbn [total read lastTick r].
  destruct (rr_n res >? 0); cbn [total read lastTick r];
    [destruct (_ || _)|]; cbn [fst snd r total]; auto.
Qed.

Lemma readCalls_cons (p : progressReader R) (blen : nat) (now : Z)
      (calls : list (nat * Z)) :
  readCalls indef p ((blen, now) :: calls)
  = (fst (fst (readCalls indef (fst (fst (progressReader_Read indef p blen now))) calls)),
     snd (fst (progressReader_Read indef p blen now))
       :: snd (fst (readCalls indef (fst (fst (progressReader_Read indef p blen now))) calls)),
     snd (progressReader_Read indef p blen now)
       ++ snd (readCalls indef (fst (fst (progressReader_Read indef p blen now))) calls)).
Proof.
  cbn [readCalls].
  destruct (progressReader_Read indef p blen now) as [[p1 res] out].
  cbn [fst snd]. now destruct (readCalls indef p1 calls) as [[p2 ress] outs].
Qed.

Lemma readCalls_app (p : progressReader R) (calls1 calls2 : list (nat * Z)) :
  readCalls indef p (calls1 ++ calls2)
  = (fst (fst (readCalls indef (fst (fst (readCalls indef p calls1))) calls2)),
     snd (fst (readCalls indef p calls1))
       ++ snd (fst (readCalls indef (fst (fst (readCalls indef p calls1))) calls2)),
     snd (readCalls indef p calls1)
       ++ snd (readCalls indef (fst (fst (readCalls indef p calls1))) calls2)).
Proof.
  revert p. induction calls1 as [|[blen now] calls1 IH]; intros p.
  - cbn [app readCalls fst snd]. now destruct (readCalls indef p calls2) as [[? ?] ?].
  - cbn [app]. rewrite !readCalls_cons, IH. cbn [fst snd].
    now rewrite app_assoc.
Qed.

Lemma readCalls_source (p : progressReader R) (calls : list (nat * Z)) :
  (r (fst (fst (readCalls indef p calls))), snd (fst (readCalls indef p calls)))
  = sourceCalls (r p) (map fst calls)
  /\ total (fst (fst (readCalls indef p calls))) = total p.
Proof.
  revert p. induction calls as [|[blen now] calls IH]; intros p.
  - cbn. auto.
  - rewrite readCalls_cons. cbn [fst snd map sourceCalls].
    destruct (progressReader_Read_source p blen now) as [Hsrc Htot].
    rewrite <- Hsrc.
    destruct (IH (fst (fst (progressReader_Read indef p blen now)))) as [IHsrc IHtot].
    rewrite <- IHsrc. split; [reflexivity | congruence].
Qed.

End ReaderFacts.

(** C7.  The wrapper is transparent.  A call of [Read] on it makes exactly
    one call of [Read] on the source with the same buffer, and returns the
    count, the bytes and the error of that call unchanged (the end of data
    included); so over any run of calls the wrapper returns, call by call,
    what the source alone returns for the same buffers, and leaves the
    source in the same state: nothing is held back, read ahead or dropped. *)
Theorem progressReader_transparent :
  forall (indef : Z) (R : Type) (src : Reader R) (p : progressReader R),
    (forall blen now,
        (r (fst (fst (progressReader_Read indef p blen now))),
         snd (fst (progressReader_Read indef p blen now)))
        = Read (r p) blen)
    /\ (forall calls,
        (r (fst (fst (readCalls indef p calls))), snd (fst (readCalls indef p calls)))
        = sourceCalls (r p) (map fst calls)).
Proof.
  intros indef R src p. split.
  - intros blen now. apply progressReader_Read_source.
  - intros calls. apply readCalls_source.
Qed.

(** ** The reader over the encoded body *)

Lemma wrap64_small (z : Z) : - 2 ^ 63 <= z < 2 ^ 63 -> wrap64 z = z.
Proof.
  intros Hz. unfold wrap64.
  rewrite Z.mod_small by (change (2 ^ 64) with (2 ^ 63 + 2 ^ 63); lia). lia.
Qed.

Section BodyReader.

Variable indef : Z.
Variable raw : list byte.
Hypothesis raw_fits : Z.of_nat (List.length raw) < 2 ^ 63.

Lemma uploadReader_inv : readerInv raw (uploadReader raw).
Proof. unfold readerInv, uploadReader. cbn. repeat split; lia. Qed.

Lemma progressReader_Read_inv (p : progressReader bytesReader) (blen : nat) (now : Z) :
  readerInv raw p ->
  readerInv raw (fst (fst (progressReader_Read indef p blen now)))
  /\ read (fst (fst (progressReader_Read indef p blen now)))
     = read p + rr_n (snd (fst (progressReader_Read indef p blen now)))
  /\ 0 <= rr_n (snd (fst (progressReader_Read indef p blen now)))
  /\ (is_EOF (rr_err (snd (fst (progressReader_Read indef p blen now)))) = true <->
      exhausted (r p)).
Proof.
  intros (Hs & Hi & Hread & Htot).
  unfold progressReader_Read, Read, bytesReader_Read, exhausted, readerInv.
  rewrite Hs.
  destruct (Z.leb_spec (Z.of_nat (List.length raw)) (br_i (r p))) as [Hend|Hmore].
  - cbn. repeat split; try lia; auto.
  - set (data := firstn blen (skipn (Z.to_nat (br_i (r p))) raw)).
    assert (0 <= Z.of_nat (List.length data) <= Z.of_nat (List.length raw) - br_i (r p))
      as Hn.
    { unfold data. clear data. rewrite length_firstn, length_skipn. lia. }
    cbn [rr_n rr_err is_EOF total read lastTick r].
    destruct (Z.gtb_spec (Z.of_nat (List.length data)) 0) as [Hpos|Hzero].
    + rewrite wrap64_small by lia.
      destruct (_ || _); cbn [fst snd r total read br_s br_i rr_n rr_err is_EOF app];
        (split; [repeat split; lia | split; [lia | split; [lia | split; [discriminate | lia]]]]).
    + cbn [fst snd r total read br_s br_i rr_n rr_err is_EOF app].
      split; [repeat split; lia | split; [lia | split; [lia | split; [discriminate | lia]]]].
Qed.

Lemma readCalls_inv (calls : list (nat * Z)) (p : progressReader bytesReader) :
  readerInv raw p ->
  readerInv raw (fst (fst (readCalls indef p calls)))
  /\ read (fst (fst (readCalls indef p calls)))
     = read p + sumCounts (snd (fst (readCalls indef p calls)))
  /\ 0 <= sumCounts (snd (fst (readCalls indef p calls)))
  /\ ((exists res, In res (snd (fst (readCalls indef p calls)))
                   /\ is_EOF (rr_err res) = true) ->
      exhausted (r (fst (fst (readCalls indef p calls))))).
Proof.
  revert p. induction calls as [|[blen now] calls IH]; intros p Hinv.
  - cbn. split; [assumption|]. split; [lia|]. split; [lia|]. intros [res [[] _]].
  - rewrite readCalls_cons. cbn [fst snd sumCounts fold_right].
    destruct (progressReader_Read_inv p blen now Hinv) as (Hinv1 & Hread1 & Hn1 & Heof1).
    destruct (IH _ Hinv1) as (Hinv2 & Hread2 & Hn2 & Heof2).
    unfold sumCounts in Hread2, Hn2.
    split; [assumption|]. split; [lia|]. split; [lia|].
    intros [res [[<-|Hin] Hres]].
    + apply Heof1 in Hres.
      destruct Hinv as (Hs & Hi & Hr & _). destruct Hinv1 as (Hs1 & Hi1 & Hr1 & _).
      destruct Hinv2 as (Hs2 & Hi2 & Hr2 & _).
      unfold exhausted in *. rewrite Hs in Hres. rewrite Hs2. lia.
    + apply Heof2. now exists res.
Qed.

(** What the reader writes: the terminal line, or a render in a state
    whose counter is positive and within the total. *)
Lemma progressReader_Read_events (p : progressReader bytesReader) (blen : nat) (now : Z) :
  readerInv raw p ->
  forall e, In e (snd (progressReader_Read indef p blen now)) ->
    e = EvStderr doneLine
    \/ exists p' : progressReader bytesReader,
        e = EvStderr (render indef p')
        /\ 0 < read p' <= total p' /\ total p' < 2 ^ 63.
Proof.
  intros (Hs & Hi & Hread & Htot).
  unfold progressReader_Read, Read, bytesReader_Read. rewrite Hs.
  destruct (Z.leb_spec (Z.of_nat (List.length raw)) (br_i (r p))) as [Hend|Hmore].
  - cbn. intros e [<-|[]]. now left.
  - set (data := firstn blen (skipn (Z.to_nat (br_i (r p))) raw)).
    assert (0 <= Z.of_nat (List.length data) <= Z.of_nat (List.length raw) - br_i (r p))
      as Hn.
    { unfold data. clear data. rewrite length_firstn, length_skipn. lia. }
    cbn [rr_n rr_err is_EOF total read lastTick r].
    destruct (Z.gtb_spec (Z.of_nat (List.length data)) 0) as [Hpos|Hzero].
    + rewrite wrap64_small by lia.
      destruct (_ || _); cbn [fst snd app In]; intros e He.
      * destruct He as [<-|[]]. right.
        eexists. split; [reflexivity|]. cbn [read total]. lia.
      * contradiction.
    + cbn [fst snd app In]. contradiction.
Qed.

Lemma readCalls_events (calls : list (nat * Z)) (p : progressReader bytesReader) :
  readerInv raw p ->
  forall e, In e (snd (readCalls indef p calls)) ->
    e = EvStderr doneLine
    \/ exists p' : progressReader bytesReader,
        e = EvStderr (render indef p')
        /\ 0 < read p' <= total p' /\ total p' < 2 ^ 63.
Proof.
  revert p. induction calls as [|[blen now] calls IH]; intros p Hinv e.
  - intros [].
  - rewrite readCalls_cons. cbn [snd]. rewrite in_app_iff. intros [He|He].
    + eapply progressReader_Read_events; eauto.
    + destruct (progressReader_Read_inv p blen now Hinv) as (Hinv1 & _).
      eapply IH; eauto.
Qed.

End BodyReader.

(** C6.  Over the reader that [uploadFile] builds on an encoded body of
    [total] bytes, after any run of [Read] calls, of any number and with
    any buffer sizes: the counter is the sum of the counts returned so
    far, it lies between 0 and [total], and it equals [total] as soon as
    the source is exhausted, in particular once some call has returned the
    end of data.  (An [int64] counter cannot wrap here: a slice is shorter
    than [2^63] bytes.) *)
Theorem read_counter_bounded :
  forall (indef : Z) (raw : list byte) (calls : list (nat * Z)),
    Z.of_nat (List.length raw) < 2 ^ 63 ->
    let run := readCalls indef (uploadReader raw) calls in
    let p := fst (fst run) in
    total p = Z.of_nat (List.length raw)
    /\ read p = sumCounts (snd (fst run))
    /\ 0 <= read p <= total p
    /\ (exhausted (r p) -> read p = total p)
    /\ ((exists res, In res (snd (fst run)) /\ rr_err res = Some io_EOF) ->
        read p = total p).
Proof.
  intros indef raw calls Hfits run p.
  destruct (readCalls_inv indef raw Hfits calls _ (uploadReader_inv raw))
    as ((Hs & Hi & Hread & Htot) & Hsum & _ & Heof).
  fold run in Hs, Hi, Hread, Htot, Hsum, Heof. fold p in Hs, Hi, Hread, Htot, Hsum, Heof.
  assert (exhausted (r p) -> read p = total p) as Hex.
  { unfold exhausted. rewrite Hs. lia. }
  split; [assumption|]. split; [exact Hsum|]. split; [lia|]. split; [exact Hex|].
  intros [res [Hin Hres]]. apply Hex, Heof. exists res. now rewrite Hres.
Qed.

Lemma read_counter_bounded_witness :
  Z.of_nat (List.length [x01; x02; x03; x04; x05]) < 2 ^ 63
  /\ read (fst (fst (readCalls 0 (uploadReader [x01; x02; x03; x04; x05])
                       [(2%nat, 10); (2%nat, 20)]))) = 4
  /\ read (fst (fst (readCalls 0 (uploadReader [x01; x02; x03; x04; x05])
                       [(2%nat, 10); (2%nat, 20); (64%nat, 30); (64%nat, 40)]))) = 5.
Proof.
  assert (Z.of_nat (List.length [x01; x02; x03; x04; x05]) < 2 ^ 63) as Hfits
      by reflexivity.
  split; [exact Hfits|]. split.
  - pose proof (read_counter_bounded 0 [x01; x02; x03; x04; x05]
                  [(2%nat, 10); (2%nat, 20)] Hfits) as (_ & Hsum & _).
    rewrite Hsum. reflexivity.
  - pose proof (read_counter_bounded 0 [x01; x02; x03; x04; x05]
                  [(2%nat, 10); (2%nat, 20); (64%nat, 30); (64%nat, 40)] Hfits)
      as (Htot & _ & _ & _ & Heof).
    rewrite Heof; [exact Htot|].
    exists (mkReadResult 0 [] (Some io_EOF)). split; [|reflexivity].
    vm_compute. auto.
Defined.

(** ** The terminal render *)

Lemma lastChar_app (s t : string) :
  lastChar (s ++ t) =
  match lastChar t with
  | Some c => Some c
  | None => lastChar s
  end.
Proof.
  induction s as [|c s IH].
  - change (EmptyString ++ t)%string with t. cbn [lastChar].
    now destruct (lastChar t).
  - change (String c s ++ t)%string with (String c (s ++ t)%string).
    cbn [lastChar]. rewrite IH. now destruct (lastChar t).
Qed.

Lemma renderDone_line {R : Type} (p : progressReader R) : renderDone p = doneLine.
Proof. reflexivity. Qed.

Lemma render_not_done {R : Type} (indef : Z) (p : progressReader R) :
  isDone (EvStderr (render indef p)) = false.
Proof.
  cbn [isDone]. apply String.eqb_neq. intros Heq.
  apply (f_equal lastChar) in Heq. unfold render in Heq.
  rewrite !lastChar_app in Heq. vm_compute in Heq. discriminate.
Qed.

Section DoneFacts.

Variable indef : Z.
Context {R : Type} `{Reader R}.

Lemma progressReader_Read_done (p : progressReader R) (blen : nat) (now : Z) :
  countDone (snd (progressReader_Read indef p blen now))
  = if is_EOF (rr_err (snd (fst (progressReader_Read indef p blen now))))
    then 1%nat else 0%nat.
Proof.
  unfold progressReader_Read, countDone.
  destruct (Read (r p) blen) as [r' res]. cbn [total read lastTick r].
  destruct (rr_n res >? 0); [destruct (_ || _)|];
    cbn [fst snd app filter]; rewrite ?render_not_done;
    destruct (is_EOF (rr_err res)); cbn [filter app];
    rewrite ?renderDone_line; reflexivity.
Qed.

Lemma countDone_app (es1 es2 : list event) :
  countDone (es1 ++ es2) = (countDone es1 + countDone es2)%nat.
Proof. unfold countDone. now rewrite filter_app, length_app. Qed.

Lemma readCalls_done (calls : list (nat * Z)) (p : progressReader R) :
  countDone (snd (readCalls indef p calls))
  = countEOF (snd (fst (readCalls indef p calls))).
Proof.
  revert p. induction calls as [|[blen now] calls IH]; intros p.
  - reflexivity.
  - rewrite readCalls_cons. cbn [fst snd].
    rewrite countDone_app, IH, progressReader_Read_done.
    unfold countEOF. cbn [filter].
    destruct (is_EOF (rr_err (snd (fst (progressReader_Read indef p blen now)))));
      reflexivity.
Qed.

End DoneFacts.

(** C2, as stated, fails: the terminal render is not produced exactly once
    for every run of calls.  On a body of three bytes, three calls with a
    buffer of four bytes exhaust the source at the first call and meet the
    end of data twice; the terminal line is written twice. *)
Lemma terminal_render_twice :
  countEOF (snd (fst (readCalls 0 (uploadReader [x01; x02; x03])
                        [(4%nat, 10); (4%nat, 20); (4%nat, 30)]))) = 2%nat
  /\ countDone (snd (readCalls 0 (uploadReader [x01; x02; x03])
                       [(4%nat, 10); (4%nat, 20); (4%nat, 30)])) = 2%nat
  /\ countDone (snd (readCalls 0 (uploadReader [x01; x02; x03])
                       [(4%nat, 10); (4%nat, 20); (4%nat, 30)])) <> 1%nat.
Proof.
  split; [|split]; [vm_compute; reflexivity | vm_compute; reflexivity |].
  vm_compute. discriminate.
Qed.

(** C2, amended.  Every call of [Read] that returns the end of data writes
    the terminal line once, and no other call writes it: over any run of
    calls, on any source, the number of terminal renders is the number of
    calls that returned the end of data.  It is exactly one when the calls
    stop at the first end of data. *)
Theorem terminal_render_per_EOF :
  forall (indef : Z) (R : Type) (src : Reader R) (p : progressReader R),
    (forall calls,
        countDone (snd (readCalls indef p calls))
        = countEOF (snd (fst (readCalls indef p calls))))
    /\ (forall calls blen now,
        countEOF (snd (fst (readCalls indef p calls))) = 0%nat ->
        rr_err (snd (Read (r (fst (fst (readCalls indef p calls)))) blen))
          = Some io_EOF ->
        countDone (snd (readCalls indef p (calls ++ [(blen, now)]))) = 1%nat).
Proof.
  intros indef R src p. split.
  - intros calls. apply readCalls_done.
  - intros calls blen now Hnone Hlast.
    rewrite readCalls_done, readCalls_app. cbn [fst snd].
    unfold countEOF in *. rewrite filter_app, length_app, Hnone.
    rewrite readCalls_cons. cbn [fst snd readCalls filter].
    destruct (progressReader_Read_source indef
                (fst (fst (readCalls indef p calls))) blen now) as [Hsrc _].
    apply (f_equal snd) in Hsrc. cbn [snd] in Hsrc.
    rewrite Hsrc, Hlast. reflexivity.
Qed.

Lemma terminal_render_per_EOF_witness :
  countEOF (snd (fst (readCalls 0 (uploadReader [x01; x02; x03])
                        [(2%nat, 10); (2%nat, 20)]))) = 0%nat
  /\ countDone (snd (readCalls 0 (uploadReader [x01; x02; x03])
                       ([(2%nat, 10); (2%nat, 20)] ++ [(2%nat, 30)]))) = 1%nat.
Proof.
  split; [reflexivity|].
  apply (proj2 (terminal_render_per_EOF 0 bytesReader bytesReader_Read
                  (uploadReader [x01; x02; x03]))); reflexivity.
Defined.

(** ** The loop body, file by file *)

Section SleepFacts.

Variable indef : Z.
Context {R : Type} `{Reader R}.

Lemma progressReader_Read_stderr (p : progressReader R) (blen : nat) (now : Z) :
  forall e, In e (snd (progressReader_Read indef p blen now)) ->
            exists s, e = EvStderr s.
Proof.
  unfold progressReader_Read.
  destruct (Read (r p) blen) as [r' res]. cbn [total read lastTick r].
  destruct (rr_n res >? 0); [destruct (_ || _)|];
    destruct (is_EOF (rr_err res)); cbn [fst snd app In];
    intros e He; repeat (destruct He as [<-|He]; [eauto|]); contradiction.
Qed.

Lemma readCalls_stderr (calls : list (nat * Z)) (p : progressReader R) :
  forall e, In e (snd (readCalls indef p calls)) -> exists s, e = EvStderr s.
Proof.
  revert p. induction calls as [|[blen now] calls IH]; intros p e.
  - intros [].
  - rewrite readCalls_cons. cbn [snd]. rewrite in_app_iff. intros [He|He].
    + eapply progressReader_Read_stderr; eauto.
    + eapply IH; eauto.
Qed.

Lemma readCalls_filter (f : event -> bool) (calls : list (nat * Z))
      (p : progressReader R) :
  (forall s, f (EvStderr s) = false) ->
  filter f (snd (readCalls indef p calls)) = [].
Proof.
  intros Hf.
  assert (forall l : list event,
             (forall e, In e l -> exists s, e = EvStderr s) -> filter f l = []) as Hall.
  { induction l as [|e l IHl]; [reflexivity|]. intros Hl. cbn [filter].
    destruct (Hl e (or_introl eq_refl)) as [s ->]. rewrite Hf.
    apply IHl. intros e' He'. apply Hl. now right. }
  apply Hall, readCalls_stderr.
Qed.

End SleepFacts.

Lemma trace_snoc (e1 e2 e3 e4 e5 e6 e7 : event) (l : list event) (a b s : event) :
  e1 :: e2 :: e3 :: e4 :: e5 :: e6 :: e7 :: l ++ [a; b; s]
  = (e1 :: e2 :: e3 :: e4 :: e5 :: e6 :: e7 :: l ++ [a; b]) ++ [s].
Proof.
  cbn [app]. do 7 f_equal. rewrite <- app_assoc. reflexivity.
Qed.

Ltac no_sleep :=
  cbn [filter isSleep];
  rewrite ?filter_app, ?readCalls_filter by reflexivity;
  reflexivity.

(** C1, as stated, fails: no pause follows a file that is skipped.  For a
    path that is a directory the loop body stats it, logs the skip and
    goes on to the next file; it does not sleep. *)
Lemma skipped_directory_no_pause :
  processFile 0 (fun s => s) (fun _ _ bs => bs) "samples"
    (mkFileEnv (inr (true, 4096)) (OpenErr (Err "is a directory"))
       (NetError (Err "unreachable")) (OpenErr (Err "is a directory")) []
       (inl (Err "unreachable")))
  = ([EvStat "samples"; EvLog ("Skipping directory: samples" ++ LF)],
     Ret SkippedDirectory)
  /\ ~ In (EvSleep 1000)
       (trace (processFile 0 (fun s => s) (fun _ _ bs => bs) "samples"
                 (mkFileEnv (inr (true, 4096)) (OpenErr (Err "is a directory"))
                    (NetError (Err "unreachable")) (OpenErr (Err "is a directory")) []
                    (inl (Err "unreachable"))))).
Proof.
  split; [reflexivity|].
  cbn. intros [H|[H|[]]]; discriminate.
Qed.

(** C1, amended.  The pause of one second follows an upload that
    succeeded, and only that: when the file ends as uploaded, the pause is
    the last thing the loop body does and the only pause in it; on every
    other way out of the loop body (a stat error, a directory, an oversize
    file, a checksum or lookup error, a file already found, a failed
    upload, the rate-limit exit) there is no pause at all. *)
Theorem pause_only_after_upload :
  forall (indef : Z) (filepath_Base : string -> string)
         (multipartForm : string -> string -> list byte -> list byte)
         (filePath : string) (env : fileEnv),
    match result (processFile indef filepath_Base multipartForm filePath env) with
    | Ret Uploaded =>
        exists tr,
          trace (processFile indef filepath_Base multipartForm filePath env)
            = tr ++ [EvSleep 1000]
          /\ filter isSleep tr = []
    | _ =>
        filter isSleep
          (trace (processFile indef filepath_Base multipartForm filePath env)) = []
    end.
Proof.
  intros indef base mp filePath env.
  unfold processFile, calculateSHA1Checksum.
  destruct (fe_stat env) as [e|[isDir size]]; run_simpl; [reflexivity|].
  destruct isDir; run_simpl; [reflexivity|].
  destruct (size >? maxUploadSize); run_simpl; [reflexivity|].
  destruct (fe_hashFile env); run_simpl; try reflexivity.
  unfold checkJottiSearch.
  destruct (fe_lookup env) as [e|status [e|body]]; run_simpl; try reflexivity.
  - destruct (status =? http_StatusOK); run_simpl; reflexivity.
  - destruct (status =? http_StatusOK); run_simpl; [|reflexivity].
    destruct (contains body rateLimitMarker); run_simpl; [reflexivity|].
    destruct (contains body notFoundMarker); run_simpl; [|reflexivity].
    unfold uploadFile.
    destruct (fe_uploadFile env); run_simpl; try reflexivity.
    destruct (fe_post env) as [e|st]; run_simpl; [no_sleep|].
    destruct (negb (st =? http_StatusOK)); run_simpl; [no_sleep|].
    eexists. split; [apply trace_snoc | no_sleep].
Qed.

(** C5.  The ceiling is 250 MiB, and a file whose size as given by
    [os.Stat] exceeds it is skipped at once: the loop body stats the
    path, logs the skip and is done.  Its events contain no opening of
    the file (neither for hashing nor for upload) and no request over the
    network. *)
Theorem oversize_skipped_before_any_work :
  forall (indef : Z) (filepath_Base : string -> string)
         (multipartForm : string -> string -> list byte -> list byte)
         (filePath : string) (env : fileEnv) (isDir : bool) (size : Z),
    fe_stat env = inr (isDir, size) ->
    size > maxUploadSize ->
    maxUploadSize = 250 * 2 ^ 20
    /\ processFile indef filepath_Base multipartForm filePath env
       = ([EvStat filePath;
           EvLog (if isDir then "Skipping directory: " ++ filePath ++ LF
                  else "Skipping " ++ filePath ++ ": file size " ++ itoa size
                         ++ " exceeds 250MB limit" ++ LF)],
          Ret (if isDir then SkippedDirectory else SkippedOversize))
    /\ filter isOpenOrNetwork
         (trace (processFile indef filepath_Base multipartForm filePath env)) = [].
Proof.
  intros indef base mp filePath env isDir size Hstat Hsize.
  split; [reflexivity|].
  assert (processFile indef base mp filePath env
          = ([EvStat filePath;
              EvLog (if isDir then "Skipping directory: " ++ filePath ++ LF
                     else "Skipping " ++ filePath ++ ": file size " ++ itoa size
                            ++ " exceeds 250MB limit" ++ LF)],
             Ret (if isDir then SkippedDirectory else SkippedOversize))) as Hrun.
  { unfold processFile. rewrite Hstat.
    destruct isDir; [reflexivity|].
    destruct (Z.gtb_spec size maxUploadSize) as [_|Hle]; [reflexivity | lia]. }
  split; [exact Hrun|]. rewrite Hrun. reflexivity.
Qed.

Lemma oversize_skipped_before_any_work_witness :
  262144001 > maxUploadSize
  /\ processFile 0 (fun s => s) (fun _ _ bs => bs) "big.iso"
       (mkFileEnv (inr (false, 262144001)) (Contents [x01]) 
          (Response 200 (Body "Hash not found")) (Contents [x01]) [(8%nat, 0)]
          (inr 200))
     = ([EvStat "big.iso";
         EvLog ("Skipping big.iso: file size 262144001 exceeds 250MB limit" ++ LF)],
        Ret SkippedOversize).
Proof.
  split; [reflexivity|].
  exact (proj1 (proj2 (oversize_skipped_before_any_work 0 (fun s => s) (fun _ _ bs => bs)
      "big.iso"
      (mkFileEnv (inr (false, 262144001)) (Contents [x01]) 
          (Response 200 (Body "Hash not found")) (Contents [x01]) [(8%nat, 0)]
          (inr 200))
      false 262144001 eq_refl eq_refl))).
Defined.

(** ** The checksum computer *)

Lemma Sha1_sum_length (msg : list byte) : List.length (Sha1.sum msg) = 20%nat.
Proof.
  unfold Sha1.sum.
  destruct (Sha1.blocks _ Sha1.init _) as [[[[h0 h1] h2] h3] h4].
  rewrite length_map, !length_app. reflexivity.
Qed.

Lemma hex_EncodeToString_length (src : list byte) :
  String.length (hex_EncodeToString src) = (2 * List.length src)%nat.
Proof.
  induction src as [|v src IH]; [reflexivity|].
  cbn [hex_EncodeToString String.length List.length]. rewrite IH. lia.
Qed.

Lemma hexDigit_pair_lower (v : byte) :
  isLowerHex (hexDigit (N.shiftr (Byte.to_N v) 4)) = true
  /\ isLowerHex (hexDigit (N.land (Byte.to_N v) 15)) = true.
Proof. destruct v; split; reflexivity. Qed.

Lemma hex_EncodeToString_lower (src : list byte) :
  Forall (fun c => isLowerHex c = true)
         (list_ascii_of_string (hex_EncodeToString src)).
Proof.
  induction src as [|v src IH]; [constructor|].
  cbn [hex_EncodeToString list_ascii_of_string].
  destruct (hexDigit_pair_lower v) as [Hhi Hlo].
  constructor; [exact Hhi|]. constructor; [exact Hlo | exact IH].
Qed.

(** C9.  The checksum is a function of the bytes of the file alone: two
    files of the same content, under any two paths, get the same digest
    string; and that string is always 40 characters long, each one of
    [0-9a-f]. *)
Theorem checksum_of_content :
  forall (path1 path2 : string) (bs : list byte),
    exists digest,
      calculateSHA1Checksum path1 (Contents bs) = ([EvOpen path1], Ret (digest, None))
      /\ calculateSHA1Checksum path2 (Contents bs) = ([EvOpen path2], Ret (digest, None))
      /\ String.length digest = 40%nat
      /\ Forall (fun c => isLowerHex c = true) (list_ascii_of_string digest).
Proof.
  intros path1 path2 bs. exists (hex_EncodeToString (Sha1.sum bs)).
  split; [reflexivity|]. split; [reflexivity|]. split.
  - now rewrite hex_EncodeToString_length, Sha1_sum_length.
  - apply hex_EncodeToString_lower.
Qed.

(** The digests of three standard messages, computed by the model. *)
Example checksum_empty :
  result (calculateSHA1Checksum "empty" (Contents []))
  = Ret ("da39a3ee5e6b4b0d3255bfef95601890afd80709", None).
Proof. vm_compute. reflexivity. Qed.

Example checksum_abc :
  result (calculateSHA1Checksum "abc.txt" (Contents (list_byte_of_string "abc")))
  = Ret ("a9993e364706816aba3e25717850c26c9cd0d89d", None).
Proof. vm_compute. reflexivity. Qed.

Example checksum_two_blocks :
  result (calculateSHA1Checksum "two.txt"
            (Contents (list_byte_of_string
                         "abcdbcdecdefdefgefghfghighijhijkijkljklmklmnlmnomnopnopq")))
  = Ret ("84983e441c3bd26ebaae4aa1f95129e5e54670f1", None).
Proof. vm_compute. reflexivity. Qed.

(** ** The progress line *)

Lemma append_assoc (a b c : string) : ((a ++ b) ++ c)%string = (a ++ (b ++ c))%string.
Proof.
  induction a as [|x a IH]; [reflexivity|].
  change (String x a ++ b)%string with (String x (a ++ b)%string).
  change (String x (a ++ b) ++ c)%string with (String x ((a ++ b) ++ c)%string).
  change (String x a ++ (b ++ c))%string with (String x (a ++ (b ++ c))%string).
  now rewrite IH.
Qed.

Lemma barCells_shape (filled : Z) :
  string_of_list_ascii (barCells filled) = barOf (Z.to_nat (Z.min 20 filled)).
Proof.
  destruct (Z_le_gt_dec filled 0) as [Hneg|Hpos].
  - replace (Z.to_nat (Z.min 20 filled)) with 0%nat by lia.
    unfold barCells.
    change (indices progressBarWidth)
      with [0; 1; 2; 3; 4; 5; 6; 7; 8; 9; 10; 11; 12; 13; 14; 15; 16; 17; 18; 19].
    cbn [map].
    repeat match goal with
           | |- context [?i <? filled] =>
               rewrite (proj2 (Z.ltb_ge i filled)) by lia
           end.
    reflexivity.
  - destruct (Z_le_gt_dec 20 filled) as [Hfull|Hpart].
    + replace (Z.to_nat (Z.min 20 filled)) with 20%nat by lia.
      unfold barCells.
      change (indices progressBarWidth)
        with [0; 1; 2; 3; 4; 5; 6; 7; 8; 9; 10; 11; 12; 13; 14; 15; 16; 17; 18; 19].
      cbn [map].
      repeat match goal with
             | |- context [?i <? filled] =>
                 rewrite (proj2 (Z.ltb_lt i filled)) by lia
             end.
      reflexivity.
    + assert (filled = 1 \/ filled = 2 \/ filled = 3 \/ filled = 4 \/ filled = 5
              \/ filled = 6 \/ filled = 7 \/ filled = 8 \/ filled = 9 \/ filled = 10
              \/ filled = 11 \/ filled = 12 \/ filled = 13 \/ filled = 14
              \/ filled = 15 \/ filled = 16 \/ filled = 17 \/ filled = 18
              \/ filled = 19) as Hcases by lia.
      repeat (destruct Hcases as [->|Hcases]; [reflexivity|]).
      subst filled. reflexivity.
Qed.

Lemma barOf_length (k : nat) :
  (k <= 20)%nat -> String.length (barOf k) = 20%nat.
Proof.
  intros Hk. unfold barOf, progressBarWidth.
  assert (forall l, String.length (string_of_list_ascii l) = List.length l) as Hlen.
  { induction l as [|c l IH]; [reflexivity|]. cbn. now rewrite IH. }
  rewrite Hlen, length_app, !repeat_length. lia.
Qed.

Lemma filledOf_min {R : Type} (indef : Z) (p : progressReader R) :
  filledOf indef p
  = Z.min 20 (Float64.to_int indef
                (Float64.div (percentOf p) (Float64.of_int (100 / progressBarWidth)))).
Proof.
  unfold filledOf, progressBarWidth.
  destruct (Z.gtb_spec
              (Float64.to_int indef (Float64.div (percentOf p) (Float64.of_int (100 / 20))))
              20); lia.
Qed.

(** The conversion to [int] discards the fraction; on a value that is not
    negative this is its floor, and on a negative one both are at most
    zero, which fills no cell. *)
Lemma to_int_floor (indef : Z) (x : Float64.float64) (z : Z) :
  float_floor x = Some z ->
  - 2 ^ 63 <= z < 2 ^ 63 ->
  Z.to_nat (Z.min 20 (Float64.to_int indef x)) = Z.to_nat (Z.min 20 z).
Proof.
  destruct x as [s|s| |s m e]; cbn [float_floor]; try discriminate.
  - intros [= <-] _. reflexivity.
  - intros [= <-] Hrange. unfold Float64.to_int, Float64.trunc.
    destruct (Z.leb_spec 0 e) as [He|He].
    + rewrite Z.shiftl_mul_pow2 by lia.
      assert ((if s then - (Z.pos m * 2 ^ e) else Z.pos m * 2 ^ e)
              = (if s then Z.neg m else Z.pos m) * 2 ^ e) as -> by (destruct s; lia).
      destruct (Z.leb_spec (- 2 ^ 63) ((if s then Z.neg m else Z.pos m) * 2 ^ e));
        destruct (Z.ltb_spec ((if s then Z.neg m else Z.pos m) * 2 ^ e) (2 ^ 63));
        cbn [andb]; lia.
    + rewrite Z.shiftr_div_pow2 by lia.
      assert (0 < 2 ^ (- e)) as Hd by (apply Z.pow_pos_nonneg; lia).
      destruct s.
      * pose proof (Z.mul_div_le (Z.pos m) _ Hd) as Hq1.
        pose proof (Z.mul_succ_div_gt (Z.pos m) _ Hd) as Hq2.
        pose proof (Z.mul_div_le (Z.neg m) _ Hd) as Hf1.
        pose proof (Z.mul_succ_div_gt (Z.neg m) _ Hd) as Hf2.
        assert (Z.neg m / 2 ^ (- e) <= - (Z.pos m / 2 ^ (- e)) <= 0) as Hcmp by nia.
        destruct (Z.leb_spec (- 2 ^ 63) (- (Z.pos m / 2 ^ (- e))));
          destruct (Z.ltb_spec (- (Z.pos m / 2 ^ (- e))) (2 ^ 63));
          cbn [andb]; lia.
      * destruct (Z.leb_spec (- 2 ^ 63) (Z.pos m / 2 ^ (- e)));
          destruct (Z.ltb_spec (Z.pos m / 2 ^ (- e)) (2 ^ 63));
          cbn [andb]; lia.
Qed.

Lemma digit_isDigit (z : Z) : 0 <= z <= 9 -> isDigit (Float64.digit z) = true.
Proof.
  intros Hz.
  assert (z = 0 \/ z = 1 \/ z = 2 \/ z = 3 \/ z = 4 \/ z = 5 \/ z = 6 \/ z = 7
          \/ z = 8 \/ z = 9) as Hcases by lia.
  repeat (destruct Hcases as [->|Hcases]; [reflexivity|]).
  subst z. reflexivity.
Qed.

(** A finite value printed with [%6.2f] ends in a point and two digits. *)
Lemma fmt_6_2f_two_decimals (x : Float64.float64) :
  isFinite x = true ->
  exists pre d1 d2,
    Float64.fmt_6_2f x = (pre ++ "." ++ String d1 (String d2 ""))%string
    /\ isDigit d1 = true /\ isDigit d2 = true.
Proof.
  destruct x as [s|s| |s m e]; cbn [isFinite]; try discriminate; intros _;
    unfold Float64.fmt_6_2f, Float64.padLeft, Float64.fmt_2f.
  - set (k := (6 - String.length (Float64.signString s ++ "0.00"))%nat).
    exists (Float64.spaces k ++ Float64.signString s ++ "0")%string, "0"%char, "0"%char.
    split; [|split; reflexivity].
    rewrite !append_assoc. reflexivity.
  - set (c := Float64.scaled_round m e 100).
    set (k := (6 - String.length _)%nat).
    exists (Float64.spaces k ++ Float64.signString s ++ itoa (c / 100))%string,
           (Float64.digit (c mod 100 / 10)), (Float64.digit (c mod 10)).
    split; [|split].
    + rewrite !append_assoc. reflexivity.
    + apply digit_isDigit. pose proof (Z.mod_pos_bound c 100 eq_refl) as Hb.
      assert (c mod 100 / 10 < 10) by (apply Z.div_lt_upper_bound; lia).
      split; [apply Z.div_pos; lia | lia].
    + apply digit_isDigit. pose proof (Z.mod_pos_bound c 10 eq_refl). lia.
Qed.

(** ** Magnitudes of binary64 values

    The digits of the mantissa plus the exponent give the binade of a
    finite value.  Rounding keeps it or moves to the next one, so the
    binade of [percent] and of the cell count can be bounded from those of
    the two counters, without following the mantissas. *)

Lemma digits2_pos_size (p : positive) : digits2_pos p = Pos.size p.
Proof. induction p; cbn; congruence. Qed.

Lemma Zdigits2_bounds (z : Z) :
  0 < z -> 2 ^ (Zdigits2 z - 1) <= z < 2 ^ Zdigits2 z.
Proof.
  intros Hz. destruct z as [|p|p]; try lia. cbn [Zdigits2].
  rewrite digits2_pos_size.
  pose proof (Z.log2_spec (Z.pos p) Hz) as Hlog.
  assert (Z.pos (Pos.size p) = Z.succ (Z.log2 (Z.pos p))) as ->.
  { destruct p; cbn; lia. }
  now replace (Z.succ (Z.log2 (Z.pos p)) - 1) with (Z.log2 (Z.pos p)) by lia.
Qed.

Lemma Zdigits2_unique (z k : Z) :
  2 ^ (k - 1) <= z < 2 ^ k -> 0 < z -> Zdigits2 z = k.
Proof.
  intros Hk Hz. pose proof (Zdigits2_bounds z Hz) as Hd.
  assert (0 < Zdigits2 z) by (destruct z; cbn; lia).
  assert (0 < k).
  { destruct (Z_lt_le_dec 0 k); [assumption|].
    rewrite (Z.pow_neg_r 2 (k - 1)) in Hk by lia.
    assert (2 ^ k <= 1) by (destruct (Z.eq_dec k 0) as [->|]; [cbn; lia|rewrite Z.pow_neg_r; lia]).
    lia. }
  destruct (Z.lt_trichotomy (Zdigits2 z) k) as [Hlt|[Heq|Hgt]]; [|assumption|].
  - assert (2 ^ Zdigits2 z <= 2 ^ (k - 1)) by (apply Z.pow_le_mono_r; lia). lia.
  - assert (2 ^ k <= 2 ^ (Zdigits2 z - 1)) by (apply Z.pow_le_mono_r; lia). lia.
Qed.

Lemma shr_1_m (mrs : shr_record) :
  0 <= shr_m mrs -> shr_m (shr_1 mrs) = shr_m mrs / 2.
Proof.
  destruct mrs as [m r s]. cbn [shr_m]. intros Hm.
  destruct m as [|[p|p|]|p]; cbn [shr_1 shr_m].
  - reflexivity.
  - apply Z.div_unique with (r := 1); lia.
  - apply Z.div_unique with (r := 0); lia.
  - reflexivity.
  - lia.
Qed.

Lemma iter_shr_1_m (n : positive) :
  forall mrs, 0 <= shr_m mrs ->
              shr_m (iter_pos shr_1 n mrs) = shr_m mrs / 2 ^ Z.pos n.
Proof.
  induction n as [n IH|n IH|]; intros mrs Hm; cbn [iter_pos].
  - assert (0 <= shr_m (shr_1 mrs)) as H1
        by (rewrite shr_1_m by assumption; apply Z.div_pos; lia).
    assert (0 <= shr_m (iter_pos shr_1 n (shr_1 mrs))) as H2
        by (rewrite IH by assumption; apply Z.div_pos; lia).
    rewrite IH, IH, shr_1_m by assumption.
    rewrite !Z.div_div by lia. f_equal.
    replace (Z.pos n~1) with (Z.pos n + Z.pos n + 1) by lia.
    rewrite !Z.pow_add_r by lia. ring.
  - assert (0 <= shr_m (iter_pos shr_1 n mrs)) as H2
        by (rewrite IH by assumption; apply Z.div_pos; lia).
    rewrite IH, IH by assumption.
    rewrite !Z.div_div by lia. f_equal.
    replace (Z.pos n~0) with (Z.pos n + Z.pos n) by lia.
    rewrite !Z.pow_add_r by lia. ring.
  - now rewrite shr_1_m.
Qed.

Lemma fexp64 (e : Z) : fexp 53 1024 e = Z.max (e - 53) (- 1074).
Proof. reflexivity. Qed.

Lemma shr_fexp_shiftF (m e : Z) (l : location) :
  0 <= m ->
  (shr_m (fst (shr_fexp 53 1024 m e l)), snd (shr_fexp 53 1024 m e l)) = shiftF m e.
Proof.
  intros Hm. unfold shr_fexp, shiftF, shr.
  assert (shr_m (shr_record_of_loc m l) = m) as Hrec by (destruct l as [|[]]; reflexivity).
  destruct (fexp 53 1024 (Zdigits2 m + e) - e) as [|p|p] eqn:Hn; cbn [fst snd Z.ltb Z.compare].
  - now rewrite Hrec.
  - rewrite iter_shr_1_m by (rewrite Hrec; assumption). now rewrite Hrec.
  - now rewrite Hrec.
Qed.

Lemma round_nearest_even_cases (m : Z) (l : location) :
  round_nearest_even m l = m \/ round_nearest_even m l = m + 1.
Proof.
  destruct l as [|[]]; cbn [round_nearest_even]; auto.
  destruct (Z.even m); auto.
Qed.

Lemma binary_round_aux_cases (sx : bool) (mx ex : Z) (lx : location) :
  0 <= mx ->
  exists m2,
    (m2 = fst (shiftF mx ex) \/ m2 = fst (shiftF mx ex) + 1)
    /\ binary_round_aux 53 1024 sx mx ex lx
       = match fst (shiftF m2 (snd (shiftF mx ex))) with
         | Z0 => S754_zero sx
         | Zpos m =>
             if snd (shiftF m2 (snd (shiftF mx ex))) <=? 971
             then S754_finite sx m (snd (shiftF m2 (snd (shiftF mx ex))))
             else S754_infinity sx
         | Zneg _ => S754_nan
         end.
Proof.
  intros Hm. unfold binary_round_aux.
  pose proof (shr_fexp_shiftF mx ex lx Hm) as H1.
  destruct (shr_fexp 53 1024 mx ex lx) as [mrs1 e1]. cbn [fst snd] in H1.
  set (m2 := round_nearest_even (shr_m mrs1) (loc_of_shr_record mrs1)).
  assert (0 <= fst (shiftF mx ex)) as Hm1.
  { unfold shiftF.
    destruct (Z.ltb_spec 0 (fexp 53 1024 (Zdigits2 mx + ex) - ex)) as [Hn|Hn];
      cbn [fst]; [|lia].
    apply Z.div_pos; [lia|]. apply Z.pow_pos_nonneg; lia. }
  assert (m2 = fst (shiftF mx ex) \/ m2 = fst (shiftF mx ex) + 1) as Hm2.
  { rewrite <- H1. cbn [fst]. apply round_nearest_even_cases. }
  exists m2. split; [exact Hm2|].
  assert (0 <= m2) as Hm2pos by lia.
  pose proof (shr_fexp_shiftF m2 e1 loc_Exact Hm2pos) as H2.
  destruct (shr_fexp 53 1024 m2 e1 loc_Exact) as [mrs2 e2]. cbn [fst snd] in H2.
  rewrite <- H1. cbn [snd]. rewrite <- H2. cbn [fst snd]. reflexivity.
Qed.

Lemma Zdigits2_pos (m : Z) : 0 < m -> 0 < Zdigits2 m.
Proof. destruct m; cbn; lia. Qed.

Lemma Zdigits2_shift (m n : Z) :
  0 < m -> 0 <= n < Zdigits2 m -> 0 < m / 2 ^ n /\ Zdigits2 (m / 2 ^ n) = Zdigits2 m - n.
Proof.
  intros Hm Hn. pose proof (Zdigits2_bounds m Hm) as [Hlo Hhi].
  assert (0 < 2 ^ n) as Hpn by (apply Z.pow_pos_nonneg; lia).
  assert (2 ^ (Zdigits2 m - n - 1) <= m / 2 ^ n) as Hq1.
  { apply Z.div_le_lower_bound; [assumption|].
    rewrite <- Z.pow_add_r by lia.
    now replace (n + (Zdigits2 m - n - 1)) with (Zdigits2 m - 1) by lia. }
  assert (m / 2 ^ n < 2 ^ (Zdigits2 m - n)) as Hq2.
  { apply Z.div_lt_upper_bound; [assumption|].
    rewrite <- Z.pow_add_r by lia.
    now replace (n + (Zdigits2 m - n)) with (Zdigits2 m) by lia. }
  assert (0 < 2 ^ (Zdigits2 m - n - 1)) by (apply Z.pow_pos_nonneg; lia).
  split; [lia|]. apply Zdigits2_unique; [|lia]. split; assumption.
Qed.

Lemma Zdigits2_succ (m : Z) :
  0 < m -> Zdigits2 (m + 1) = Zdigits2 m \/ Zdigits2 (m + 1) = Zdigits2 m + 1.
Proof.
  intros Hm. pose proof (Zdigits2_bounds m Hm) as [Hlo Hhi].
  pose proof (Zdigits2_pos m Hm) as Hd.
  destruct (Z_lt_le_dec (m + 1) (2 ^ Zdigits2 m)) as [Hlt|Hge].
  - left. apply Zdigits2_unique; lia.
  - right. apply Zdigits2_unique; [|lia].
    replace (Zdigits2 m + 1 - 1) with (Zdigits2 m) by lia.
    rewrite Z.pow_add_r by lia. change (2 ^ 1) with 2. lia.
Qed.

(** In the normal range [shiftF] keeps the magnitude and leaves at most
    53 digits. *)
Lemma shiftF_normal (m e : Z) :
  0 < m -> - 1074 <= Zdigits2 m + e - 53 ->
  0 < fst (shiftF m e)
  /\ Zdigits2 (fst (shiftF m e)) + snd (shiftF m e) = Zdigits2 m + e
  /\ snd (shiftF m e) = Z.max e (Zdigits2 m + e - 53).
Proof.
  intros Hm Hnorm. unfold shiftF. rewrite fexp64.
  replace (Z.max (Zdigits2 m + e - 53) (- 1074) - e) with (Zdigits2 m - 53) by lia.
  pose proof (Zdigits2_pos m Hm) as Hd.
  destruct (Z.ltb_spec 0 (Zdigits2 m - 53)) as [Hn|Hn]; cbn [fst snd].
  - destruct (Zdigits2_shift m (Zdigits2 m - 53) Hm) as [Hpos Hdg]; [lia|].
    rewrite Hdg. lia.
  - lia.
Qed.

(** Rounding a positive mantissa in the normal range gives a finite
    float of the same magnitude, or the next one. *)
Lemma binary_round_aux_finite (sx : bool) (mx ex : Z) (lx : location) :
  0 < mx ->
  - 1021 <= Zdigits2 mx + ex ->
  ex <= 971 ->
  Zdigits2 mx + ex <= 1023 ->
  exists m e,
    binary_round_aux 53 1024 sx mx ex lx = S754_finite sx m e
    /\ Zdigits2 mx + ex <= Zdigits2 (Z.pos m) + e <= Zdigits2 mx + ex + 1.
Proof.
  intros Hm Hlo Hex Hhi.
  destruct (binary_round_aux_cases sx mx ex lx) as (m2 & Hm2 & ->); [lia|].
  destruct (shiftF_normal mx ex Hm) as (Hpos1 & Hmag1 & He1); [lia|].
  set (m1 := fst (shiftF mx ex)) in *. set (e1 := snd (shiftF mx ex)) in *.
  assert (0 < m2) as Hm2pos by lia.
  assert (Zdigits2 m2 = Zdigits2 m1 \/ Zdigits2 m2 = Zdigits2 m1 + 1) as Hdg2.
  { destruct Hm2 as [->| ->]; [now left | now apply Zdigits2_succ]. }
  destruct (shiftF_normal m2 e1 Hm2pos) as (Hpos3 & Hmag3 & He3); [lia|].
  destruct (fst (shiftF m2 e1)) as [|m3|m3] eqn:Hm3; try lia.
  destruct (Z.leb_spec (snd (shiftF m2 e1)) 971) as [Hfin|Hinf]; [|lia].
  exists m3, (snd (shiftF m2 e1)). split; [reflexivity|]. lia.
Qed.

Lemma Zdigits2_mul_pow2 (m k : Z) :
  0 < m -> 0 <= k -> Zdigits2 (m * 2 ^ k) = Zdigits2 m + k.
Proof.
  intros Hm Hk. pose proof (Zdigits2_bounds m Hm) as [Hlo Hhi].
  pose proof (Zdigits2_pos m Hm) as Hd.
  assert (0 < 2 ^ k) as Hpk by (apply Z.pow_pos_nonneg; lia).
  apply Zdigits2_unique; [|nia].
  replace (Zdigits2 m + k - 1) with (Zdigits2 m - 1 + k) by lia.
  rewrite !Z.pow_add_r by lia. split; nia.
Qed.

Lemma Zdigits2_mul (a b : Z) :
  0 < a -> 0 < b ->
  Zdigits2 a + Zdigits2 b - 1 <= Zdigits2 (a * b) <= Zdigits2 a + Zdigits2 b.
Proof.
  intros Ha Hb.
  pose proof (Zdigits2_bounds a Ha) as [Halo Hahi].
  pose proof (Zdigits2_bounds b Hb) as [Hblo Hbhi].
  pose proof (Zdigits2_pos a Ha) as Hda. pose proof (Zdigits2_pos b Hb) as Hdb.
  assert (0 < a * b) as Hab by nia.
  pose proof (Zdigits2_bounds (a * b) Hab) as [Hlo Hhi].
  pose proof (Zdigits2_pos (a * b) Hab) as Hd.
  assert (2 ^ (Zdigits2 a - 1 + (Zdigits2 b - 1)) <= a * b) as H1.
  { rewrite Z.pow_add_r by lia.
    assert (0 < 2 ^ (Zdigits2 a - 1)) by (apply Z.pow_pos_nonneg; lia).
    assert (0 < 2 ^ (Zdigits2 b - 1)) by (apply Z.pow_pos_nonneg; lia). nia. }
  assert (a * b < 2 ^ (Zdigits2 a + Zdigits2 b)) as H2.
  { rewrite Z.pow_add_r by lia. nia. }
  split.
  - destruct (Z_lt_le_dec (Zdigits2 (a * b)) (Zdigits2 a + Zdigits2 b - 1)) as [Hlt|]; [|lia].
    assert (2 ^ Zdigits2 (a * b) <= 2 ^ (Zdigits2 a - 1 + (Zdigits2 b - 1)))
      by (apply Z.pow_le_mono_r; lia). lia.
  - destruct (Z_lt_le_dec (Zdigits2 a + Zdigits2 b) (Zdigits2 (a * b))) as [Hlt|]; [|lia].
    assert (2 ^ (Zdigits2 a + Zdigits2 b) <= 2 ^ (Zdigits2 (a * b) - 1))
      by (apply Z.pow_le_mono_r; lia). lia.
Qed.

Lemma Zdigits2_le (a b : Z) : 0 < a -> a <= b -> Zdigits2 a <= Zdigits2 b.
Proof.
  intros Ha Hab.
  pose proof (Zdigits2_bounds a Ha) as [Halo Hahi].
  pose proof (Zdigits2_bounds b ltac:(lia)) as [Hblo Hbhi].
  pose proof (Zdigits2_pos a Ha) as Hda.
  destruct (Z_lt_le_dec (Zdigits2 b) (Zdigits2 a)) as [Hlt|]; [|lia].
  assert (2 ^ Zdigits2 b <= 2 ^ (Zdigits2 a - 1)) by (apply Z.pow_le_mono_r; lia). lia.
Qed.

Lemma Pos_iter_xO (p d : positive) : Z.pos (Pos.iter xO p d) = Z.pos p * 2 ^ Z.pos d.
Proof.
  induction d as [|d IH] using Pos.peano_ind.
  - cbn [Pos.iter]. lia.
  - rewrite Pos.iter_succ, Pos2Z.inj_xO, IH, Pos2Z.inj_succ, Z.pow_succ_r by lia. ring.
Qed.

Lemma binary_round_finite (p : positive) :
  Zdigits2 (Z.pos p) <= 1023 ->
  finiteIn (binary_round 53 1024 false p 0) false
           (Zdigits2 (Z.pos p)) (Zdigits2 (Z.pos p) + 1).
Proof.
  intros Hd. unfold binary_round, shl_align. rewrite fexp64.
  change (Z.pos (digits2_pos p)) with (Zdigits2 (Z.pos p)).
  pose proof (Zdigits2_pos (Z.pos p) eq_refl) as Hpos.
  replace (Z.max (Zdigits2 (Z.pos p) + 0 - 53) (- 1074) - 0)
    with (Zdigits2 (Z.pos p) - 53) by lia.
  destruct (Zdigits2 (Z.pos p) - 53) as [|k|k] eqn:Hk.
  - destruct (binary_round_aux_finite false (Z.pos p) 0 loc_Exact) as (m & e & Hr & Hmag);
      try lia.
    exists m, e. split; [exact Hr | lia].
  - destruct (binary_round_aux_finite false (Z.pos p) 0 loc_Exact) as (m & e & Hr & Hmag);
      try lia.
    exists m, e. split; [exact Hr | lia].
  - assert (Zdigits2 (Z.pos (Pos.iter xO p k)) = Zdigits2 (Z.pos p) + Z.pos k) as Hdg.
    { rewrite Pos_iter_xO. apply Zdigits2_mul_pow2; lia. }
    replace (Z.max (Zdigits2 (Z.pos p) + 0 - 53) (- 1074)) with (Z.neg k) by lia.
    destruct (binary_round_aux_finite false (Z.pos (Pos.iter xO p k)) (Z.neg k) loc_Exact)
      as (m & e & Hr & Hmag); try lia.
    exists m, e. split; [exact Hr | lia].
Qed.

Lemma of_int_finite (z : Z) :
  0 < z < 2 ^ 63 ->
  finiteIn (Float64.of_int z) false (Zdigits2 z) (Zdigits2 z + 1).
Proof.
  intros Hz. destruct z as [|p|p]; try lia.
  unfold Float64.of_int, binary_normalize. apply binary_round_finite.
  pose proof (Zdigits2_le (Z.pos p) (2 ^ 63) eq_refl ltac:(lia)) as Hle.
  change (Zdigits2 (2 ^ 63)) with 64 in Hle. lia.
Qed.

Lemma SFmul_finite (x y : spec_float) (sx sy : bool) (lox hix loy hiy : Z) :
  finiteIn x sx lox hix -> finiteIn y sy loy hiy ->
  - 1020 <= lox + loy -> hix + hiy <= 973 ->
  finiteIn (SFmul 53 1024 x y) (xorb sx sy) (lox + loy - 1) (hix + hiy + 1).
Proof.
  intros (mx & ex & -> & Hx) (my & ey & -> & Hy) Hlo Hhi.
  cbn [SFmul].
  pose proof (Zdigits2_mul (Z.pos mx) (Z.pos my) eq_refl eq_refl) as Hd.
  pose proof (Zdigits2_pos (Z.pos mx) eq_refl).
  pose proof (Zdigits2_pos (Z.pos my) eq_refl).
  destruct (binary_round_aux_finite (xorb sx sy) (Z.pos (mx * my)) (ex + ey) loc_Exact)
    as (m & e & Hr & Hmag); rewrite ?Pos2Z.inj_mul; try lia.
  exists m, e. split; [exact Hr|]. rewrite Pos2Z.inj_mul in Hmag. lia.
Qed.

Lemma SFdiv_core_magnitude (m1 e1 m2 e2 : Z) :
  0 < m1 -> 0 < m2 ->
  - 1021 <= Zdigits2 m1 + e1 - (Zdigits2 m2 + e2) ->
  0 < fst (fst (SFdiv_core_binary 53 1024 m1 e1 m2 e2))
  /\ Zdigits2 m1 + e1 - (Zdigits2 m2 + e2)
     <= Zdigits2 (fst (fst (SFdiv_core_binary 53 1024 m1 e1 m2 e2)))
        + snd (fst (SFdiv_core_binary 53 1024 m1 e1 m2 e2))
     <= Zdigits2 m1 + e1 - (Zdigits2 m2 + e2) + 1
  /\ snd (fst (SFdiv_core_binary 53 1024 m1 e1 m2 e2))
     <= Zdigits2 m1 + e1 - (Zdigits2 m2 + e2) - 53.
Proof.
  intros Hm1 Hm2 Hnorm. unfold SFdiv_core_binary. rewrite fexp64.
  set (d1 := Zdigits2 m1) in *. set (d2 := Zdigits2 m2) in *.
  set (e' := Z.min (Z.max (d1 + e1 - (d2 + e2) - 53) (- 1074)) (e1 - e2)).
  set (s := e1 - e2 - e').
  pose proof (Zdigits2_pos m1 Hm1) as Hd1. fold d1 in Hd1.
  pose proof (Zdigits2_pos m2 Hm2) as Hd2. fold d2 in Hd2.
  assert (0 <= s /\ 53 - d1 + d2 <= s) as [Hs0 Hs] by (unfold s, e'; lia).
  assert (match s with
          | Z.pos _ => Z.shiftl m1 s
          | 0 => m1
          | Z.neg _ => 0
          end = m1 * 2 ^ s) as ->.
  { destruct s as [|p|p] eqn:Hsp; [cbn; lia | | lia].
    now rewrite Z.shiftl_mul_pow2 by lia. }
  assert (Zdigits2 (m1 * 2 ^ s) = d1 + s) as Hdm by (now apply Zdigits2_mul_pow2).
  assert (0 < 2 ^ s) as Hps by (apply Z.pow_pos_nonneg; lia).
  assert (0 < m1 * 2 ^ s) as Hm' by nia.
  pose proof (Zdigits2_bounds _ Hm') as [Hmlo Hmhi]. rewrite Hdm in Hmlo, Hmhi.
  pose proof (Zdigits2_bounds m2 Hm2) as [H2lo H2hi]. fold d2 in H2lo, H2hi.
  destruct (Z.div_eucl (m1 * 2 ^ s) m2) as [q r] eqn:Hqr. cbn [fst snd].
  assert (q = m1 * 2 ^ s / m2) as Hq by (unfold Z.div; now rewrite Hqr).
  set (D := d1 + s - d2).
  assert (2 ^ (D - 1) <= q) as Hqlo.
  { rewrite Hq. apply Z.div_le_lower_bound; [assumption|].
    assert (2 ^ d2 * 2 ^ (D - 1) = 2 ^ (d1 + s - 1)) as Hp.
    { rewrite <- Z.pow_add_r by (unfold D; lia). f_equal. unfold D. lia. }
    assert (0 < 2 ^ (D - 1)) by (apply Z.pow_pos_nonneg; unfold D; lia). nia. }
  assert (q < 2 ^ (D + 1)) as Hqhi.
  { rewrite Hq. apply Z.div_lt_upper_bound; [assumption|].
    assert (2 ^ (d2 - 1) * 2 ^ (D + 1) = 2 ^ (d1 + s)) as Hp.
    { rewrite <- Z.pow_add_r by (unfold D; lia). f_equal. unfold D. lia. }
    assert (0 < 2 ^ (D + 1)) by (apply Z.pow_pos_nonneg; unfold D; lia). nia. }
  assert (0 < 2 ^ (D - 1)) as HpD by (apply Z.pow_pos_nonneg; unfold D; lia).
  assert (Zdigits2 q = D \/ Zdigits2 q = D + 1) as Hdq.
  { destruct (Z_lt_le_dec q (2 ^ D)) as [Hlt|Hge].
    - left. apply Zdigits2_unique; lia.
    - right. apply Zdigits2_unique; [|lia].
      now replace (D + 1 - 1) with D by lia. }
  split; [lia|]. unfold D in Hdq. unfold s in Hdq. unfold e'. lia.
Qed.

Lemma SFdiv_finite (x y : spec_float) (sx sy : bool) (lox hix loy hiy : Z) :
  finiteIn x sx lox hix -> finiteIn y sy loy hiy ->
  - 1021 <= lox - hiy -> hix - loy <= 1022 ->
  finiteIn (SFdiv 53 1024 x y) (xorb sx sy) (lox - hiy) (hix - loy + 2).
Proof.
  intros (mx & ex & -> & Hx) (my & ey & -> & Hy) Hlo Hhi.
  cbn [SFdiv].
  destruct (SFdiv_core_magnitude (Z.pos mx) ex (Z.pos my) ey) as (Hq & Hmag & He);
    try lia.
  destruct (SFdiv_core_binary 53 1024 (Z.pos mx) ex (Z.pos my) ey) as [[q e'] l].
  cbn [fst snd] in Hq, Hmag, He.
  destruct (binary_round_aux_finite (xorb sx sy) q e' l) as (m & e & Hr & Hm); try lia.
  exists m, e. split; [exact Hr | lia].
Qed.

(** The floor of a finite float that is not negative. *)
Lemma float_floor_finite (x : spec_float) (lo hi : Z) :
  finiteIn x false lo hi -> 0 <= hi ->
  exists z, float_floor x = Some z /\ 0 <= z < 2 ^ hi.
Proof.
  intros (m & e & -> & Hmag) Hhi. cbn [float_floor].
  pose proof (Zdigits2_bounds (Z.pos m) eq_refl) as [Hlo Hup].
  pose proof (Zdigits2_pos (Z.pos m) eq_refl) as Hd.
  set (d := Zdigits2 (Z.pos m)) in *.
  destruct (Z.leb_spec 0 e) as [He|He].
  - exists (Z.pos m * 2 ^ e). split; [reflexivity|].
    assert (0 < 2 ^ e) by (apply Z.pow_pos_nonneg; lia).
    split; [nia|].
    assert (2 ^ d * 2 ^ e <= 2 ^ hi).
    { rewrite <- Z.pow_add_r by lia. apply Z.pow_le_mono_r; lia. }
    nia.
  - exists (Z.pos m / 2 ^ (- e)). split; [reflexivity|].
    assert (0 < 2 ^ (- e)) by (apply Z.pow_pos_nonneg; lia).
    split; [apply Z.div_pos; lia|].
    apply Z.div_lt_upper_bound; [assumption|].
    assert (2 ^ d <= 2 ^ (- e) * 2 ^ hi).
    { rewrite <- Z.pow_add_r by lia. apply Z.pow_le_mono_r; lia. }
    lia.
Qed.

Lemma of_int_100 : finiteIn (Float64.of_int 100) false 7 7.
Proof.
  exists 7036874417766400%positive, (- 46). split; [reflexivity|]. cbn. lia.
Qed.

Lemma of_int_5 : finiteIn (Float64.of_int (100 / progressBarWidth)) false 3 3.
Proof.
  exists 5629499534213120%positive, (- 50). split; [reflexivity|]. cbn. lia.
Qed.

(** While the counter is within the total, the percent is a finite
    [float64] and the number of cells it stands for is a small natural
    number. *)
Lemma percent_in_range {R : Type} (p : progressReader R) :
  0 <= read p <= total p ->
  0 < total p < 2 ^ 63 ->
  isFinite (percentOf p) = true
  /\ exists z,
      float_floor (Float64.div (percentOf p) (Float64.of_int (100 / progressBarWidth)))
        = Some z
      /\ 0 <= z < 2 ^ 63.
Proof.
  intros Hread Htotal. unfold percentOf.
  destruct (of_int_finite (total p) Htotal) as (mt & et & Ht & Hmt).
  destruct (Z.eq_dec (read p) 0) as [Hzero|Hpos].
  - rewrite Hzero, Ht.
    destruct of_int_5 as (m5 & e5 & -> & _).
    split; [reflexivity|]. exists 0. split; [reflexivity | lia].
  - assert (0 < read p < 2 ^ 63) as Hr by lia.
    pose proof (Zdigits2_pos (read p) ltac:(lia)) as Hdr.
    pose proof (Zdigits2_le (read p) (total p) ltac:(lia) ltac:(lia)) as Hle.
    pose proof (Zdigits2_le (total p) (2 ^ 63) ltac:(lia) ltac:(lia)) as Hdt.
    change (Zdigits2 (2 ^ 63)) with 64 in Hdt.
    pose proof (SFmul_finite _ _ _ _ _ _ _ _ (of_int_finite (read p) Hr) of_int_100
                  ltac:(lia) ltac:(lia)) as Hmul.
    pose proof (SFdiv_finite _ _ _ _ _ _ _ _ Hmul (of_int_finite (total p) Htotal)
                  ltac:(lia) ltac:(lia)) as Hdiv.
    pose proof (SFdiv_finite _ _ _ _ _ _ _ _ Hdiv of_int_5 ltac:(lia) ltac:(lia)) as Hcells.
    cbn [xorb] in Hdiv, Hcells.
    change (SFmul 53 1024) with Float64.mul in Hdiv, Hcells.
    change (SFdiv 53 1024) with Float64.div in Hdiv, Hcells.
    split.
    + destruct Hdiv as (m & e & -> & _). reflexivity.
    + destruct Hcells as (m & e & Hc & Hmag).
      destruct (float_floor_finite
                  (Float64.div
                     (Float64.div (Float64.mul (Float64.of_int (read p)) (Float64.of_int 100))
                                  (Float64.of_int (total p)))
                     (Float64.of_int (100 / progressBarWidth)))
                  (Zdigits2 (read p) + 7 - 1 - (Zdigits2 (total p) + 1) - 3) 62)
        as (z & Hz & Hzr); [|lia|].
      * exists m, e. split; [exact Hc | lia].
      * exists z. split; [exact Hz|].
        assert (2 ^ 62 < 2 ^ 63) by (apply Z.pow_lt_mono_r; lia). lia.
Qed.

(** The line of [render] in any state, whatever the conversion to [int]
    gives out of range. *)
Lemma render_line :
  forall (indef : Z) (R : Type) (p : progressReader R),
    let percent := percentOf p in
    let cells := Float64.div percent (Float64.of_int (100 / progressBarWidth)) in
    let k := Z.to_nat (Z.min 20 (Float64.to_int indef cells)) in
    render indef p
      = (CR ++ "Progress: [" ++ barOf k ++ "] " ++ Float64.fmt_6_2f percent ++ "%")%string
    /\ (k <= 20)%nat
    /\ String.length (barOf k) = Z.to_nat progressBarWidth
    /\ (forall z, float_floor cells = Some z -> - 2 ^ 63 <= z < 2 ^ 63 ->
                  k = Z.to_nat (Z.min 20 z))
    /\ (isFinite percent = true ->
        exists pre d1 d2,
          Float64.fmt_6_2f percent = (pre ++ "." ++ String d1 (String d2 ""))%string
          /\ isDigit d1 = true /\ isDigit d2 = true)
    /\ lastChar (render indef p) = Some "%"%char.
Proof.
  intros indef R p percent cells k.
  assert (k <= 20)%nat as Hk by (unfold k; lia).
  split; [|split; [exact Hk|split; [|split; [|split]]]].
  - unfold render. rewrite barCells_shape, filledOf_min.
    fold percent. fold cells.
    replace (Z.to_nat (Z.min 20 (Z.min 20 (Float64.to_int indef cells)))) with k
      by (unfold k; lia).
    reflexivity.
  - now apply barOf_length.
  - intros z Hfloor Hrange. unfold k. now apply to_int_floor.
  - apply fmt_6_2f_two_decimals.
  - unfold render. rewrite !lastChar_app. reflexivity.
Qed.

(** C8.  A progress render writes one line that starts with a carriage
    return and does not end in a line feed (its last character is the
    percent sign).  The bar has 20 cells, the first ones filled with [=]
    and the others blank, the number of filled cells being the floor of
    percent / (100/20) capped at 20, where percent is the [float64] the
    code computes and the division is the [float64] division.  After the
    bar comes the percentage, printed with a point and two digits.  This
    holds in every state whose counter is within a positive total, and
    whatever an upload writes besides the terminal line is a render in
    such a state. *)
Theorem progress_line_shape :
  forall (indef : Z),
    (forall (R : Type) (p : progressReader R),
        0 <= read p <= total p ->
        0 < total p < 2 ^ 63 ->
        let percent := percentOf p in
        let cells := Float64.div percent (Float64.of_int (100 / progressBarWidth)) in
        exists z pre d1 d2,
          float_floor cells = Some z
          /\ 0 <= z
          /\ render indef p
             = (CR ++ "Progress: [" ++ barOf (Z.to_nat (Z.min 20 z)) ++ "] "
                   ++ (pre ++ "." ++ String d1 (String d2 "")) ++ "%")%string
          /\ String.length (barOf (Z.to_nat (Z.min 20 z))) = Z.to_nat progressBarWidth
          /\ Float64.fmt_6_2f percent = (pre ++ "." ++ String d1 (String d2 ""))%string
          /\ isDigit d1 = true /\ isDigit d2 = true
          /\ lastChar (render indef p) = Some "%"%char)
    /\ (forall (raw : list byte) (calls : list (nat * Z)) (e : event),
          Z.of_nat (List.length raw) < 2 ^ 63 ->
          In e (snd (readCalls indef (uploadReader raw) calls)) ->
          e = EvStderr doneLine
          \/ exists p : progressReader bytesReader,
              e = EvStderr (render indef p)
              /\ 0 < read p <= total p /\ total p < 2 ^ 63).
Proof.
  intros indef. split.
  - intros R p Hread Htotal percent cells.
    destruct (percent_in_range p Hread Htotal) as (Hfin & z & Hfloor & Hz).
    fold percent in Hfin. fold percent cells in Hfloor.
    pose proof (render_line indef R p) as Hline. cbv zeta in Hline.
    fold percent cells in Hline.
    destruct Hline as (Hrender & Hk & Hlen & Hcount & Hfmt & Hlast).
    destruct (Hfmt Hfin) as (pre & d1 & d2 & Hpct & Hd1 & Hd2).
    exists z, pre, d1, d2.
    rewrite <- (Hcount z Hfloor ltac:(lia)), <- Hpct.
    repeat split; try assumption; lia.
  - intros raw calls e Hfits He.
    eapply readCalls_events; eauto using uploadReader_inv.
Qed.

Lemma progress_line_shape_witness :
  (0 <= 1 <= 3 /\ 0 < 3 < 2 ^ 63)
  /\ render 0 (mkProgressReader tt 3 1 0)
     = (CR ++ "Progress: [======              ]  33.33%")%string.
Proof.
  assert (0 <= 1 <= 3) as Hread by lia.
  assert (0 < 3 < 2 ^ 63) as Htotal by lia.
  split; [split; assumption|].
  pose proof (proj1 (progress_line_shape 0) unit (mkProgressReader tt 3 1 0)
                Hread Htotal) as Hline.
  cbv zeta in Hline.
  destruct Hline as (z & pre & d1 & d2 & Hfloor & _ & Hrender & _ & Hpct & _).
  rewrite Hrender, <- Hpct.
  assert (z = 6) as -> by (vm_compute in Hfloor; congruence).
  reflexivity.
Defined.

(** Whole lines, as the model prints them. *)
Example render_one_eighth :
  render 0 (mkProgressReader tt 800 100 0)
  = (CR ++ "Progress: [==                  ]  12.50%")%string.
Proof. vm_compute. reflexivity. Qed.

Example render_tie_to_even :
  render 0 (mkProgressReader tt 800 1 0)
  = (CR ++ "Progress: [                    ]   0.12%")%string.
Proof. vm_compute. reflexivity. Qed.

Example render_complete :
  render 0 (mkProgressReader tt 262144317 262144317 0)
  = (CR ++ "Progress: [====================] 100.00%")%string.
Proof. vm_compute. reflexivity. Qed.

(** * Further properties of the code *)

(** ** The lookup, whatever the server answers *)

(** X1.  Whatever the answer, [checkJottiSearch] sends one GET request, for
    the URL made from the digest, before anything else.  When it returns,
    an error comes with [found = false] and an empty URL, and is either the
    transport's error, the body's read error, or the message that carries
    a status other than 200; a success comes with the query URL.  It ends
    the process, with status 2, only on a rate-limited answer. *)
Theorem lookup_result_well_formed :
  forall (checksum : string) (resp : httpResult),
    (exists rest,
        trace (checkJottiSearch checksum resp)
        = EvHttpGet (jottiChecksumURL checksum) :: rest
        /\ filter isGet rest = [])
    /\ match result (checkJottiSearch checksum resp) with
       | Ret (found, url, Some e) =>
           found = false /\ url = ""%string
           /\ (resp = NetError e
               \/ resp = Response http_StatusOK (BodyErr e)
               \/ exists status body,
                   resp = Response status body /\ status <> http_StatusOK
                   /\ e = Err ("unexpected response status: " ++ itoa status))
       | Ret (found, url, None) =>
           url = jottiChecksumURL checksum
           /\ rateLimited resp = false
           /\ found = negb (saysNotFound resp)
       | Exit code => code = 2 /\ rateLimited resp = true
       end.
Proof.
  intros checksum resp. unfold checkJottiSearch.
  destruct resp as [e|status [e|body]]; run_simpl.
  - split; [eexists; split; reflexivity|]. auto.
  - destruct (Z.eqb_spec status http_StatusOK) as [->|Hne]; run_simpl;
      (split; [eexists; split; reflexivity|]); repeat split; auto.
    right. right. eauto.
  - cbn [rateLimited saysNotFound].
    destruct (Z.eqb_spec status http_StatusOK) as [->|Hne]; run_simpl.
    + destruct (contains body rateLimitMarker); run_simpl.
      * split; [eexists; split; reflexivity|]. split; reflexivity.
      * destruct (contains body notFoundMarker); run_simpl;
          (split; [eexists; split; reflexivity|]); repeat split; reflexivity.
    + split; [eexists; split; reflexivity|]. repeat split; auto.
      right. right. eauto.
Qed.

(** ** The upload client *)

Section UploadFacts.

Variable indef : Z.
Variable filepath_Base : string -> string.
Variable multipartForm : string -> string -> list byte -> list byte.

Local Abbreviation uploadFile := (uploadFile indef filepath_Base multipartForm).

Lemma uploadFile_requests (filePath : string) (env : fileEnv) :
  filter isPost (trace (uploadFile filePath env))
  = match fe_uploadFile env with
    | Contents bs =>
        [EvHttpPost jottiUploadURL
           (Z.of_nat (List.length
                        (multipartForm "sample-file[]" (filepath_Base filePath) bs)))]
    | _ => []
    end
  /\ filter isGet (trace (uploadFile filePath env)) = []
  /\ filter isOpen (trace (uploadFile filePath env)) = [EvOpen filePath]
  /\ filter isSleep (trace (uploadFile filePath env)) = []
  /\ filter isStat (trace (uploadFile filePath env)) = [].
Proof.
  unfold uploadFile.
  destruct (fe_uploadFile env) as [e|e|bs]; run_simpl; auto.
  cbn [filter isPost isGet isOpen isSleep isStat].
  rewrite !filter_app, !readCalls_filter by reflexivity.
  destruct (fe_post env) as [e|status]; run_simpl; auto.
  destruct (negb (status =? http_StatusOK)); run_simpl; auto.
Qed.

Lemma uploadFile_result (filePath : string) (env : fileEnv) :
  result (uploadFile filePath env)
  = Ret (""%string,
         match fe_uploadFile env with
         | OpenErr e | ReadErr e => Some e
         | Contents _ =>
             match fe_post env with
             | inl e => Some e
             | inr status =>
                 if status =? http_StatusOK then None
                 else Some (Err ("received non-200 response status: " ++ itoa status))
             end
         end).
Proof.
  unfold uploadFile.
  destruct (fe_uploadFile env) as [e|e|bs]; run_simpl; auto.
  destruct (fe_post env) as [e|status]; run_simpl; auto.
  destruct (status =? http_StatusOK); run_simpl; auto.
Qed.

Lemma uploadFile_gets (filePath : string) (env : fileEnv) :
  filter isGet (trace (uploadFile filePath env)) = [].
Proof. apply uploadFile_requests. Qed.

Lemma uploadFile_stats (filePath : string) (env : fileEnv) :
  filter isStat (trace (uploadFile filePath env)) = [].
Proof. apply uploadFile_requests. Qed.

Lemma uploadFile_opens (filePath : string) (env : fileEnv) :
  filter isOpen (trace (uploadFile filePath env)) = [EvOpen filePath].
Proof. apply uploadFile_requests. Qed.

Lemma uploadFile_posts (filePath : string) (env : fileEnv) :
  filter isPost (trace (uploadFile filePath env))
  = match fe_uploadFile env with
    | Contents bs =>
        [EvHttpPost jottiUploadURL
           (Z.of_nat (List.length
                        (multipartForm "sample-file[]" (filepath_Base filePath) bs)))]
    | _ => []
    end.
Proof. apply uploadFile_requests. Qed.

End UploadFacts.

Ltac filters :=
  cbn [filter isStat isOpen isGet isPost isSleep isOpenOrNetwork];
  rewrite ?filter_app, ?uploadFile_gets, ?uploadFile_stats, ?uploadFile_opens,
    ?uploadFile_posts;
  cbn [filter isStat isOpen isGet isPost isSleep isOpenOrNetwork app].

(** X2.  The upload succeeds exactly when the file could be read to its end
    and the server answered the one POST request with status 200; in
    every other case it returns an error, and in no case does it end the
    process or return anything but the empty string. *)
Theorem upload_succeeds_iff :
  forall (indef : Z) (filepath_Base : string -> string)
         (multipartForm : string -> string -> list byte -> list byte)
         (filePath : string) (env : fileEnv),
    (exists err, result (uploadFile indef filepath_Base multipartForm filePath env)
                 = Ret (""%string, err))
    /\ (result (uploadFile indef filepath_Base multipartForm filePath env)
        = Ret (""%string, None)
        <-> (exists bs, fe_uploadFile env = Contents bs)
            /\ fe_post env = inr http_StatusOK).
Proof.
  intros indef base mp filePath env. rewrite uploadFile_result.
  split; [eauto|].
  destruct (fe_uploadFile env) as [e|e|bs].
  - split; [discriminate | intros [[bs Hbs] _]; discriminate].
  - split; [discriminate | intros [[bs Hbs] _]; discriminate].
  - destruct (fe_post env) as [e|status].
    + split; [discriminate | intros [_ H]; discriminate].
    + destruct (Z.eqb_spec status http_StatusOK) as [->|Hne].
      * split; eauto.
      * split; [discriminate | intros [_ H]; congruence].
Qed.

(** X3.  [uploadFile] opens the file once and sends at most one request: one
    POST to the submission URL, whose content length is the length of
    the encoded form of the file's base name and content, when the file
    could be read, and none when it could not.  It never sends a GET. *)
Theorem upload_sends_one_post :
  forall (indef : Z) (filepath_Base : string -> string)
         (multipartForm : string -> string -> list byte -> list byte)
         (filePath : string) (env : fileEnv),
    filter isPost (trace (uploadFile indef filepath_Base multipartForm filePath env))
    = match fe_uploadFile env with
      | Contents bs =>
          [EvHttpPost jottiUploadURL
             (Z.of_nat (List.length
                          (multipartForm "sample-file[]" (filepath_Base filePath) bs)))]
      | _ => []
      end
    /\ filter isGet (trace (uploadFile indef filepath_Base multipartForm filePath env)) = []
    /\ filter isOpen (trace (uploadFile indef filepath_Base multipartForm filePath env))
       = [EvOpen filePath].
Proof.
  intros indef base mp filePath env.
  destruct (uploadFile_requests indef base mp filePath env) as (Hp & Hg & Ho & _ & _).
  auto.
Qed.

(** ** The loop body, branch by branch *)

(** Walks the loop body down to each of its exits, keeping what was
    learnt about the answers of the outside world. *)
Ltac walk_step env :=
  match goal with
  | |- context [fe_stat env] =>
      destruct (fe_stat env) as [?e|[[|] ?size]] eqn:Hstat
  | |- context [?s >? maxUploadSize] =>
      destruct (Z.gtb_spec s maxUploadSize) as [Hsize|Hsize]
  | |- context [fe_hashFile env] =>
      destruct (fe_hashFile env) as [?e|?e|?bs] eqn:Hhash
  | |- context [fe_lookup env] =>
      destruct (fe_lookup env) as [?e|?status [?e|?body]] eqn:Hlook
  | |- context [?s =? http_StatusOK] =>
      destruct (Z.eqb_spec s http_StatusOK) as [->|?Hok]
  | |- context [contains ?b rateLimitMarker] =>
      destruct (contains b rateLimitMarker) eqn:Hrl
  | |- context [contains ?b notFoundMarker] =>
      destruct (contains b notFoundMarker) eqn:Hnf
  | |- context [result (uploadFile _ _ _ _ _)] => rewrite uploadFile_result
  | |- context [fe_uploadFile env] =>
      destruct (fe_uploadFile env) as [?e|?e|?raw] eqn:Hup
  | |- context [fe_post env] =>
      destruct (fe_post env) as [?e|?st] eqn:Hpost
  end.

Ltac walk env :=
  unfold processFile, calculateSHA1Checksum, checkJottiSearch;
  repeat (run_simpl; cbn [negb]; walk_step env);
  run_simpl.

Section BranchFacts.

Variable indef : Z.
Variable filepath_Base : string -> string.
Variable multipartForm : string -> string -> list byte -> list byte.

Local Abbreviation uploadFile := (uploadFile indef filepath_Base multipartForm).
Local Abbreviation processFile := (processFile indef filepath_Base multipartForm).

(** The requests of one file: the GET, if any, asks for the digest of the
    content that was hashed; the POST, if any, follows a lookup that said
    the hash is unknown. *)
Lemma processFile_gets (filePath : string) (env : fileEnv) :
  filter isGet (trace (processFile filePath env)) = []
  \/ exists size bs,
      fe_stat env = inr (false, size) /\ size <= maxUploadSize
      /\ fe_hashFile env = Contents bs
      /\ filter isGet (trace (processFile filePath env))
         = [EvHttpGet (jottiChecksumURL (hex_EncodeToString (Sha1.sum bs)))].
Proof.
  walk env; filters; try (left; reflexivity); right; exists size, bs;
    repeat split; auto; lia.
Qed.

Lemma processFile_posts (filePath : string) (env : fileEnv) :
  filter isPost (trace (processFile filePath env)) = []
  \/ exists raw,
      saysNotFound (fe_lookup env) = true
      /\ fe_uploadFile env = Contents raw
      /\ List.length (filter isGet (trace (processFile filePath env))) = 1%nat
      /\ filter isPost (trace (processFile filePath env))
         = [EvHttpPost jottiUploadURL
              (Z.of_nat (List.length
                           (multipartForm "sample-file[]" (filepath_Base filePath) raw)))].
Proof.
  walk env; filters; rewrite ?Hup; try (left; reflexivity); right; exists raw;
    rewrite ?Hlook; cbn [saysNotFound]; rewrite ?Hrl, ?Hnf; repeat split; auto.
Qed.

Lemma processFile_stats (filePath : string) (env : fileEnv) :
  filter isStat (trace (processFile filePath env)) = [EvStat filePath].
Proof. walk env; filters; reflexivity. Qed.

Lemma processFile_opens (filePath : string) (env : fileEnv) :
  filter isOpenOrNetwork (trace (processFile filePath env)) = []
  \/ exists size rest,
      fe_stat env = inr (false, size) /\ size <= maxUploadSize
      /\ trace (processFile filePath env) = EvStat filePath :: EvOpen filePath :: rest
      /\ (List.length (filter isOpen (trace (processFile filePath env))) <= 2)%nat.
Proof.
  walk env; try (left; reflexivity); right; exists size; eexists;
    (split; [reflexivity|]); (split; [lia|]); (split; [reflexivity|]);
    filters; cbn [List.length]; lia.
Qed.

Lemma processFile_sleeps (filePath : string) (env : fileEnv) :
  filter isSleep (trace (processFile filePath env))
  = match result (processFile filePath env) with
    | Ret Uploaded => [EvSleep 1000]
    | _ => []
    end
  /\ (List.length (filter isSleep (trace (processFile filePath env)))
      <= List.length (filter isPost (trace (processFile filePath env))))%nat
  /\ (List.length (filter isPost (trace (processFile filePath env)))
      <= List.length (filter isGet (trace (processFile filePath env))))%nat
  /\ (List.length (filter isGet (trace (processFile filePath env))) <= 1)%nat.
Proof.
  walk env; filters;
    rewrite ?(proj1 (proj2 (proj2 (proj2 (uploadFile_requests indef filepath_Base
                                            multipartForm filePath env))))),
            ?Hup;
    cbn [app List.length]; repeat split; try reflexivity; lia.
Qed.

Lemma processFiles_cons (filePath : string) (env : fileEnv)
      (rest : list (string * fileEnv)) :
  trace (processFiles indef filepath_Base multipartForm ((filePath, env) :: rest))
  = trace (processFile filePath env)
      ++ match result (processFile filePath env) with
         | Ret _ => trace (processFiles indef filepath_Base multipartForm rest)
         | Exit _ => []
         end
  /\ result (processFiles indef filepath_Base multipartForm ((filePath, env) :: rest))
     = match result (processFile filePath env) with
       | Ret t =>
           match result (processFiles indef filepath_Base multipartForm rest) with
           | Ret ts => Ret (t :: ts)
           | Exit c => Exit c
           end
       | Exit c => Exit c
       end.
Proof.
  cbn [processFiles]. run_simpl.
  destruct (result (processFile filePath env)); run_simpl; [|auto].
  destruct (result (processFiles indef filepath_Base multipartForm rest)); run_simpl;
    rewrite ?app_nil_r; auto.
Qed.

End BranchFacts.

(** X4.  A file is opened, or anything is sent over the network for it,
    exactly when [os.Stat] succeeds and reports a file that is not a
    directory and whose size is at most the limit: a stat error, a
    directory and an oversize file cause neither, and a file of exactly
    the limit is processed.  Then the open for hashing comes right after
    the stat, and the file is opened at most twice. *)
Theorem file_opened_iff_regular_within_limit :
  forall (indef : Z) (filepath_Base : string -> string)
         (multipartForm : string -> string -> list byte -> list byte)
         (filePath : string) (env : fileEnv),
    ((exists e, In e (trace (processFile indef filepath_Base multipartForm filePath env))
                /\ isOpenOrNetwork e = true)
     <-> exists size, fe_stat env = inr (false, size) /\ size <= maxUploadSize)
    /\ (forall size,
          fe_stat env = inr (false, size) -> size <= maxUploadSize ->
          exists rest,
            trace (processFile indef filepath_Base multipartForm filePath env)
            = EvStat filePath :: EvOpen filePath :: rest)
    /\ (List.length
          (filter isOpen (trace (processFile indef filepath_Base multipartForm filePath env)))
        <= 2)%nat.
Proof.
  intros indef base mp filePath env.
  destruct (processFile_opens indef base mp filePath env)
    as [Hnone|(size & rest & Hstat & Hsize & Htrace & Hopens)].
  - assert (forall size, fe_stat env = inr (false, size) -> size <= maxUploadSize -> False)
      as Hno.
    { intros size. revert Hnone. clear.
      walk env; filters; intros Hn Hs Hsz; try discriminate;
        injection Hs as <-; lia. }
    split; [split|split].
    + intros (e & He & Hk).
      pose proof (proj2 (filter_In _ _ _) (conj He Hk)) as Hin.
      rewrite Hnone in Hin. contradiction.
    + intros (size & Hstat & Hsize). exfalso. eauto.
    + intros size Hstat Hsize. exfalso. eauto.
    + assert (forall l, filter isOpenOrNetwork l = [] -> filter isOpen l = []) as Hsub.
      { induction l as [|x l IH]; [reflexivity|]. cbn [filter].
        destruct x; cbn [isOpenOrNetwork isOpen]; try discriminate; auto. }
      rewrite (Hsub _ Hnone). cbn. lia.
  - split; [split|split].
    + intros _. eauto.
    + intros _. exists (EvOpen filePath). rewrite Htrace. split; [cbn; auto | reflexivity].
    + intros size' _ _. eauto.
    + exact Hopens.
Qed.

(** X5.  The only URL that is ever queried for a file is the lookup URL of the
    SHA-1 digest of the content that was hashed: a file that could not be
    hashed causes no lookup, and no other GET is sent.  What is put into
    the URL is 40 characters of [0-9a-f]. *)
Theorem queried_url_is_digest_of_content :
  forall (indef : Z) (filepath_Base : string -> string)
         (multipartForm : string -> string -> list byte -> list byte)
         (filePath : string) (env : fileEnv) (url : string),
    In (EvHttpGet url) (trace (processFile indef filepath_Base multipartForm filePath env)) ->
    exists bs,
      fe_hashFile env = Contents bs
      /\ url = jottiChecksumURL (hex_EncodeToString (Sha1.sum bs))
      /\ String.length (hex_EncodeToString (Sha1.sum bs)) = 40%nat
      /\ Forall (fun c => isLowerHex c = true)
                (list_ascii_of_string (hex_EncodeToString (Sha1.sum bs))).
Proof.
  intros indef base mp filePath env url Hin.
  assert (In (EvHttpGet url)
             (filter isGet (trace (processFile indef base mp filePath env)))) as Hf
      by (apply filter_In; auto).
  destruct (processFile_gets indef base mp filePath env)
    as [Hnone|(size & bs & _ & _ & Hhash & Hget)].
  - rewrite Hnone in Hf. contradiction.
  - rewrite Hget in Hf. destruct Hf as [Heq|[]]. injection Heq as <-.
    exists bs. repeat split; auto.
    + now rewrite hex_EncodeToString_length, Sha1_sum_length.
    + apply hex_EncodeToString_lower.
Qed.

(** X6.  A file is uploaded only after a lookup that answered, with status
    200, that the hash is unknown (and that was not rate-limited): a file
    already found, or one whose lookup failed, is never uploaded.  The
    POST then goes to the submission URL and carries the encoded form of
    the file as [uploadFile] read it. *)
Theorem upload_only_after_not_found :
  forall (indef : Z) (filepath_Base : string -> string)
         (multipartForm : string -> string -> list byte -> list byte)
         (filePath : string) (env : fileEnv) (url : string) (len : Z),
    In (EvHttpPost url len)
       (trace (processFile indef filepath_Base multipartForm filePath env)) ->
    saysNotFound (fe_lookup env) = true
    /\ url = jottiUploadURL
    /\ exists raw,
        fe_uploadFile env = Contents raw
        /\ len = Z.of_nat (List.length
                             (multipartForm "sample-file[]" (filepath_Base filePath) raw)).
Proof.
  intros indef base mp filePath env url len Hin.
  assert (In (EvHttpPost url len)
             (filter isPost (trace (processFile indef base mp filePath env)))) as Hf
      by (apply filter_In; auto).
  destruct (processFile_posts indef base mp filePath env)
    as [Hnone|(raw & Hnf & Hup & _ & Hpost)].
  - rewrite Hnone in Hf. contradiction.
  - rewrite Hpost in Hf. destruct Hf as [Heq|[]]. injection Heq as <- <-. eauto.
Qed.

(** ** The whole run *)

Section RunCounts.

Variable indef : Z.
Variable filepath_Base : string -> string.
Variable multipartForm : string -> string -> list byte -> list byte.

Local Abbreviation processFile := (processFile indef filepath_Base multipartForm).
Local Abbreviation processFiles := (processFiles indef filepath_Base multipartForm).

Lemma countEv_app (f : event -> bool) (es1 es2 : list event) :
  countEv f (es1 ++ es2) = (countEv f es1 + countEv f es2)%nat.
Proof. unfold countEv. now rewrite filter_app, length_app. Qed.

Lemma processFiles_counts (files : list (string * fileEnv)) :
  (countEv isStat (trace (processFiles files)) <= List.length files)%nat
  /\ (countEv isSleep (trace (processFiles files))
      <= countEv isPost (trace (processFiles files)))%nat
  /\ (countEv isPost (trace (processFiles files))
      <= countEv isGet (trace (processFiles files)))%nat
  /\ (countEv isGet (trace (processFiles files))
      <= countEv isStat (trace (processFiles files)))%nat
  /\ match result (processFiles files) with
     | Ret ts =>
         List.length ts = List.length files
         /\ countEv isStat (trace (processFiles files)) = List.length files
         /\ countEv isSleep (trace (processFiles files))
            = List.length (filter isUploaded ts)
     | Exit _ => True
     end.
Proof.
  induction files as [|[p env] rest IH].
  - cbn. repeat split; lia.
  - destruct (processFiles_cons indef filepath_Base multipartForm p env rest) as [-> ->].
    destruct (processFile_sleeps indef filepath_Base multipartForm p env)
      as (Hsl & Hsp & Hpg & Hg1).
    pose proof (processFile_stats indef filepath_Base multipartForm p env) as Hst.
    apply (f_equal (@List.length event)) in Hst. cbn [List.length] in Hst.
    apply (f_equal (@List.length event)) in Hsl.
    unfold countEv in *. rewrite !filter_app, !length_app.
    cbn [List.length].
    destruct IH as (IH1 & IH2 & IH3 & IH4 & IH5).
    destruct (result (processFile p env)) as [t|c].
    + repeat split; try lia.
      destruct (result (processFiles rest)) as [ts|c]; [|exact I].
      destruct IH5 as (Hlen & Hstats & Hsleeps).
      cbn [List.length filter]. repeat split; try lia.
      rewrite Hsl. destruct t; cbn [isUploaded List.length]; lia.
    + cbn [filter List.length]. repeat split; lia.
Qed.

End RunCounts.

(** X7.  No retries and no extra traffic: over a whole run there is at most
    one [os.Stat] per argument, at most one lookup per file that was
    stat'd, at most one upload per lookup, and at most one pause per
    upload. *)
Theorem run_requests_bounded :
  forall (indef : Z) (filepath_Base : string -> string)
         (multipartForm : string -> string -> list byte -> list byte)
         (files : list (string * fileEnv)),
    let run := trace (processFiles indef filepath_Base multipartForm files) in
    (countEv isStat run <= List.length files)%nat
    /\ (countEv isGet run <= countEv isStat run)%nat
    /\ (countEv isPost run <= countEv isGet run)%nat
    /\ (countEv isSleep run <= countEv isPost run)%nat.
Proof.
  intros indef base mp files run.
  destruct (processFiles_counts indef base mp files) as (H1 & H2 & H3 & H4 & _).
  auto.
Qed.

Section RunFacts.

Variable indef : Z.
Variable filepath_Base : string -> string.
Variable multipartForm : string -> string -> list byte -> list byte.

Local Abbreviation processFile := (processFile indef filepath_Base multipartForm).
Local Abbreviation processFiles := (processFiles indef filepath_Base multipartForm).

Lemma processFile_Exit_rateLimited (filePath : string) (env : fileEnv) (c : Z) :
  result (processFile filePath env) = Exit c -> rateLimited (fe_lookup env) = true.
Proof.
  intros Hexit.
  apply processFile_Exit_inv in Hexit as (_ & body & Hlook & Hrl).
  rewrite Hlook. cbn [rateLimited]. now rewrite Hrl.
Qed.

Lemma processFiles_returns (files : list (string * fileEnv)) :
  (forall filePath env, In (filePath, env) files -> rateLimited (fe_lookup env) = false) ->
  exists ts, result (processFiles files) = Ret ts.
Proof.
  induction files as [|[p env] rest IH]; intros Hall.
  - now exists [].
  - destruct (processFiles_cons indef filepath_Base multipartForm p env rest) as [_ ->].
    destruct (result (processFile p env)) as [t|c] eqn:Hp.
    + destruct IH as [ts ->]; [|eauto].
      intros p' env' Hin. apply (Hall p' env'). now right.
    + apply processFile_Exit_rateLimited in Hp.
      rewrite (Hall p env) in Hp by now left. discriminate.
Qed.

Lemma processFiles_app (files1 files2 : list (string * fileEnv)) (ts : list terminal) :
  result (processFiles files1) = Ret ts ->
  processFiles (files1 ++ files2)
  = (trace (processFiles files1) ++ trace (processFiles files2),
     match result (processFiles files2) with
     | Ret ts' => Ret (ts ++ ts')
     | Exit c => Exit c
     end).
Proof.
  revert ts. induction files1 as [|[p env] rest IH]; intros ts Hret.
  - cbn in Hret. injection Hret as <-. cbn [app trace fst].
    rewrite (run_eta (processFiles files2)) at 1.
    now destruct (result (processFiles files2)).
  - rewrite (run_eta (processFiles (((p, env) :: rest) ++ files2))).
    cbn [app].
    destruct (processFiles_cons indef filepath_Base multipartForm p env (rest ++ files2))
      as [-> ->].
    destruct (processFiles_cons indef filepath_Base multipartForm p env rest)
      as [Ht Hr].
    rewrite Hr in Hret. rewrite Ht.
    destruct (result (processFile p env)) as [t|c]; [|discriminate].
    destruct (result (processFiles rest)) as [ts0|c] eqn:Hrest; [|discriminate].
    injection Hret as <-.
    rewrite (IH ts0 eq_refl). cbn [trace result fst snd].
    rewrite <- app_assoc. f_equal.
    now destruct (result (processFiles files2)).
Qed.

End RunFacts.

(** X8.  Every per-file error is recovered in the loop: when no lookup of the
    run is rate-limited, the run goes through every argument, whatever
    else fails (stat, hashing, lookup, upload): each file is stat'd and
    takes one of the exits of the loop body, and [main] returns, which
    ends the process with status 0. *)
Theorem per_file_errors_recovered :
  forall (indef : Z) (filepath_Base : string -> string)
         (multipartForm : string -> string -> list byte -> list byte)
         (files : list (string * fileEnv)),
    files <> [] ->
    (forall filePath env, In (filePath, env) files -> rateLimited (fe_lookup env) = false) ->
    exists ts,
      result (main indef filepath_Base multipartForm false false false files) = Ret ts
      /\ List.length ts = List.length files
      /\ countEv isStat
           (trace (main indef filepath_Base multipartForm false false false files))
         = List.length files.
Proof.
  intros indef base mp files Hne Hall.
  rewrite main_no_flags by assumption.
  destruct (processFiles_returns indef base mp files Hall) as [ts Hts].
  pose proof (processFiles_counts indef base mp files) as (_ & _ & _ & _ & Hret).
  rewrite Hts in Hret. destruct Hret as (Hlen & Hstats & _).
  exists ts. auto.
Qed.

Lemma per_file_errors_recovered_witness :
  exists ts,
    result (main 0 (fun s => s) (fun _ _ bs => bs) false false false
              [("missing", mkFileEnv (inl (Err "no such file")) (OpenErr (Err "x"))
                             (NetError (Err "x")) (OpenErr (Err "x")) [] (inl (Err "x")));
               ("a.bin", mkFileEnv (inr (false, 3)) (Contents [x01; x02; x03])
                           (Response 500 (Body "")) (Contents [x01; x02; x03]) []
                           (inr 200));
               ("b.bin", mkFileEnv (inr (false, 3)) (Contents [x01; x02; x03])
                           (Response 200 (Body "Hash not found"))
                           (Contents [x01; x02; x03]) [(8%nat, 0)]
                           (inr 503))])
    = Ret ts
    /\ List.length ts = 3%nat.
Proof.
  destruct (per_file_errors_recovered 0 (fun s => s) (fun _ _ bs => bs)
    [("missing", mkFileEnv (inl (Err "no such file")) (OpenErr (Err "x"))
                   (NetError (Err "x")) (OpenErr (Err "x")) [] (inl (Err "x")));
     ("a.bin", mkFileEnv (inr (false, 3)) (Contents [x01; x02; x03])
                 (Response 500 (Body "")) (Contents [x01; x02; x03]) []
                 (inr 200));
     ("b.bin", mkFileEnv (inr (false, 3)) (Contents [x01; x02; x03])
                 (Response 200 (Body "Hash not found"))
                 (Contents [x01; x02; x03]) [(8%nat, 0)]
                 (inr 503))]) as (ts & Hts & Hlen & _).
  - discriminate.
  - intros p env [H|[H|[H|[]]]]; injection H as <- <-; reflexivity.
  - exists ts. split; [exact Hts | exact Hlen].
Defined.

(** X9.  Files are processed one after the other with nothing carried from
    one to the next: when the run over a first list of arguments returns,
    the run over that list followed by a second one is the first run
    followed by the run over the second list alone. *)
Theorem run_of_concatenation :
  forall (indef : Z) (filepath_Base : string -> string)
         (multipartForm : string -> string -> list byte -> list byte)
         (files1 files2 : list (string * fileEnv)) (ts : list terminal),
    result (processFiles indef filepath_Base multipartForm files1) = Ret ts ->
    processFiles indef filepath_Base multipartForm (files1 ++ files2)
    = (trace (processFiles indef filepath_Base multipartForm files1)
         ++ trace (processFiles indef filepath_Base multipartForm files2),
       match result (processFiles indef filepath_Base multipartForm files2) with
       | Ret ts' => Ret (ts ++ ts')
       | Exit c => Exit c
       end).
Proof.
  intros indef base mp files1 files2 ts Hret. now apply processFiles_app.
Qed.

Lemma run_of_concatenation_witness :
  trace (processFiles 0 (fun s => s) (fun _ _ bs => bs)
           ([("docs", mkFileEnv (inr (true, 4096)) (OpenErr (Err "x"))
                        (NetError (Err "x")) (OpenErr (Err "x")) [] (inl (Err "x")))]
              ++ [("gone", mkFileEnv (inl (Err "no such file")) (OpenErr (Err "x"))
                             (NetError (Err "x")) (OpenErr (Err "x")) [] (inl (Err "x")))]))
  = [EvStat "docs"; EvLog ("Skipping directory: docs" ++ LF);
     EvStat "gone"; EvLog ("Error stat gone: no such file" ++ LF)].
Proof.
  rewrite (run_of_concatenation 0 (fun s => s) (fun _ _ bs => bs)
             [("docs", mkFileEnv (inr (true, 4096)) (OpenErr (Err "x"))
                         (NetError (Err "x")) (OpenErr (Err "x")) [] (inl (Err "x")))]
             [("gone", mkFileEnv (inl (Err "no such file")) (OpenErr (Err "x"))
                         (NetError (Err "x")) (OpenErr (Err "x")) [] (inl (Err "x")))]
             [SkippedDirectory] eq_refl).
  reflexivity.
Defined.

(** ** Flags and usage *)

(** X10.  The flags are looked at before anything else, in the order version,
    author credit, missing arguments, help.  With any of them the process
    exits without touching a file, even when paths are given: status 0
    for the three flags, status 1 when there is no argument at all. *)
Theorem flags_exit_before_any_file :
  forall (indef : Z) (filepath_Base : string -> string)
         (multipartForm : string -> string -> list byte -> list byte)
         (help version cyclone : bool) (files : list (string * fileEnv)),
    version || cyclone || help = true \/ files = [] ->
    result (main indef filepath_Base multipartForm help version cyclone files)
    = Exit (if version || cyclone then 0 else if Nat.eqb (List.length files) 0 then 1 else 0)
    /\ filter (fun e => isStat e || isOpenOrNetwork e)
         (trace (main indef filepath_Base multipartForm help version cyclone files)) = []
    /\ (version = true ->
        trace (main indef filepath_Base multipartForm help version cyclone files)
        = [EvStderr ("Jotti Uploader v1.0.0; 2025-08-27" ++ LF);
           EvStderr ("https://github.com/cyclone-github/jotti" ++ LF)]).
Proof.
  intros indef base mp help version cyclone files Hflag.
  unfold main, helpFunc, versionFunc.
  destruct version; run_simpl; [repeat split; reflexivity|].
  destruct cyclone; run_simpl; [repeat split; try reflexivity; discriminate|].
  destruct files as [|x rest].
  - cbn [List.length Z.of_nat Z.add Z.ltb Z.compare]. run_simpl.
    repeat split; try reflexivity; discriminate.
  - cbn [List.length Nat.eqb]. rewrite Nat2Z.inj_succ.
    destruct (Z.ltb_spec (Z.succ (Z.of_nat (List.length rest)) + 1) 2) as [Hlt|_]; [lia|].
    run_simpl.
    destruct help; run_simpl; [repeat split; try reflexivity; discriminate|].
    destruct Hflag as [Hf|Hf]; discriminate.
Qed.

Lemma flags_exit_before_any_file_witness :
  result (main 0 (fun s => s) (fun _ _ bs => bs) true false false
            [("a.bin", mkFileEnv (inr (false, 3)) (Contents [x01]) (NetError (Err "x"))
                         (Contents [x01]) [] (inr 200))])
  = Exit 0
  /\ result (main 0 (fun s => s) (fun _ _ bs => bs) false false false []) = Exit 1.
Proof.
  split.
  - exact (proj1 (flags_exit_before_any_file 0 (fun s => s) (fun _ _ bs => bs)
                    true false false
                    [("a.bin", mkFileEnv (inr (false, 3)) (Contents [x01])
                                 (NetError (Err "x")) (Contents [x01]) [] (inr 200))]
                    (or_introl eq_refl))).
  - exact (proj1 (flags_exit_before_any_file 0 (fun s => s) (fun _ _ bs => bs)
                    false false false [] (or_intror eq_refl))).
Defined.

(** ** What the user is shown *)

(** X11.  The result URL shown for a file is the one that was queried, the
    lookup URL of the digest printed on the checksum line.  A file found
    on the service gets the checksum line and the found line and nothing
    more; an uploaded file gets the checksum line, the upload line, the
    progress of its upload, then OK and the URL, and the pause. *)
Theorem shown_url_is_queried_url :
  forall (indef : Z) (filepath_Base : string -> string)
         (multipartForm : string -> string -> list byte -> list byte)
         (filePath : string) (env : fileEnv),
    match result (processFile indef filepath_Base multipartForm filePath env) with
    | Ret AlreadyFound =>
        exists bs,
          fe_hashFile env = Contents bs
          /\ trace (processFile indef filepath_Base multipartForm filePath env)
             = [EvStat filePath; EvOpen filePath;
                EvStdout ("SHA1 Checksum: " ++ hex_EncodeToString (Sha1.sum bs) ++ LF);
                EvHttpGet (jottiChecksumURL (hex_EncodeToString (Sha1.sum bs)));
                EvStdout ("File " ++ filePath ++ " found on Jotti:" ++ LF
                            ++ jottiChecksumURL (hex_EncodeToString (Sha1.sum bs)) ++ LF)]
    | Ret Uploaded =>
        exists bs,
          fe_hashFile env = Contents bs
          /\ trace (processFile indef filepath_Base multipartForm filePath env)
             = [EvStat filePath; EvOpen filePath;
                EvStdout ("SHA1 Checksum: " ++ hex_EncodeToString (Sha1.sum bs) ++ LF);
                EvHttpGet (jottiChecksumURL (hex_EncodeToString (Sha1.sum bs)));
                EvStdout ("Uploading " ++ filePath ++ ": ")]
               ++ trace (uploadFile indef filepath_Base multipartForm filePath env)
               ++ [EvStdout ("OK" ++ LF);
                   EvStdout (jottiChecksumURL (hex_EncodeToString (Sha1.sum bs)) ++ LF);
                   EvSleep 1000]
    | _ => True
    end.
Proof.
  intros indef base mp filePath env.
  walk env; try exact I; exists bs; split; reflexivity.
Qed.

(** ** The reader: what reaches the transport *)

Lemma firstn_length_firstn {A : Type} (k : nat) (l : list A) :
  firstn (List.length (firstn k l)) l = firstn k l.
Proof.
  revert l. induction k as [|k IH]; intros [|x l]; cbn; try reflexivity.
  now rewrite IH.
Qed.

Lemma firstn_add_skipn {A : Type} (a b : nat) (l : list A) :
  firstn (a + b) l = firstn a l ++ firstn b (skipn a l).
Proof.
  revert l. induction a as [|a IH]; intros l; [reflexivity|].
  destruct l as [|x l]; cbn [Nat.add firstn skipn app].
  - now rewrite firstn_nil.
  - now rewrite IH.
Qed.

Section DeliveryFacts.

Variable indef : Z.
Variable raw : list byte.
Hypothesis raw_fits : Z.of_nat (List.length raw) < 2 ^ 63.

Lemma progressReader_Read_delivers (p : progressReader bytesReader) (blen : nat) (now : Z) :
  readerInv raw p ->
  consumed raw (fst (fst (progressReader_Read indef p blen now)))
  = consumed raw p ++ rr_data (snd (fst (progressReader_Read indef p blen now)))
  /\ rr_n (snd (fst (progressReader_Read indef p blen now)))
     = Z.of_nat (List.length (rr_data (snd (fst (progressReader_Read indef p blen now)))))
  /\ (List.length (rr_data (snd (fst (progressReader_Read indef p blen now)))) <= blen)%nat.
Proof.
  intros (Hs & Hi & Hread & Htot).
  unfold progressReader_Read, Read, bytesReader_Read, consumed. rewrite Hs.
  destruct (Z.leb_spec (Z.of_nat (List.length raw)) (br_i (r p))) as [Hend|Hmore].
  - cbn. rewrite app_nil_r. repeat split; lia.
  - set (data := firstn blen (skipn (Z.to_nat (br_i (r p))) raw)).
    assert (firstn (Z.to_nat (br_i (r p) + Z.of_nat (List.length data))) raw
            = firstn (Z.to_nat (br_i (r p))) raw ++ data) as Hcat.
    { rewrite Z2Nat.inj_add, Nat2Z.id, firstn_add_skipn by lia.
      f_equal. unfold data. apply firstn_length_firstn. }
    assert (List.length data <= blen)%nat as Hlen
        by (unfold data; rewrite length_firstn; lia).
    cbn [rr_n rr_err is_EOF total read lastTick r].
    destruct (Z.of_nat (List.length data) >? 0); [destruct (_ || _)|];
      cbn [fst snd r br_i rr_data rr_n]; auto.
Qed.

Lemma readCalls_delivers (calls : list (nat * Z)) (p : progressReader bytesReader) :
  readerInv raw p ->
  consumed raw (fst (fst (readCalls indef p calls)))
  = consumed raw p ++ delivered (snd (fst (readCalls indef p calls)))
  /\ Forall (fun res => rr_n res = Z.of_nat (List.length (rr_data res)))
            (snd (fst (readCalls indef p calls)))
  /\ Forall2 (fun res call => (List.length (rr_data res) <= fst call)%nat)
             (snd (fst (readCalls indef p calls))) calls.
Proof.
  revert p. induction calls as [|[blen now] calls IH]; intros p Hinv.
  - cbn. rewrite app_nil_r. auto.
  - rewrite readCalls_cons. cbn [fst snd].
    destruct (progressReader_Read_delivers p blen now Hinv) as (Hc1 & Hn1 & Hl1).
    destruct (progressReader_Read_inv indef raw raw_fits p blen now Hinv) as (Hinv1 & _).
    destruct (IH _ Hinv1) as (Hc2 & Hn2 & Hl2).
    rewrite Hc2, Hc1. unfold delivered. cbn [map concat].
    rewrite <- app_assoc. repeat split; auto.
Qed.

End DeliveryFacts.

(** X12.  Reading the encoded body through the progress reader loses, repeats
    and reorders nothing: after any run of calls the chunks handed out,
    put end to end, are the first [read] bytes of the body, each chunk
    fits its buffer and has the length the call reported; and once the
    source is exhausted they are the whole body. *)
Theorem upload_body_delivered_in_order :
  forall (indef : Z) (raw : list byte) (calls : list (nat * Z)),
    Z.of_nat (List.length raw) < 2 ^ 63 ->
    let run := readCalls indef (uploadReader raw) calls in
    delivered (snd (fst run)) = firstn (Z.to_nat (read (fst (fst run)))) raw
    /\ Forall (fun res => rr_n res = Z.of_nat (List.length (rr_data res))) (snd (fst run))
    /\ Forall2 (fun res call => (List.length (rr_data res) <= fst call)%nat)
               (snd (fst run)) calls
    /\ (exhausted (r (fst (fst run))) -> delivered (snd (fst run)) = raw).
Proof.
  intros indef raw calls Hfits run.
  destruct (readCalls_delivers indef raw Hfits calls _ (uploadReader_inv raw))
    as (Hc & Hn & Hl).
  destruct (readCalls_inv indef raw Hfits calls _ (uploadReader_inv raw))
    as ((Hs & Hi & Hread & Htot) & _).
  fold run in Hc, Hn, Hl, Hs, Hi, Hread, Htot.
  unfold consumed in Hc. cbn [uploadReader r bytes_NewReader br_i Z.to_nat firstn app] in Hc.
  assert (delivered (snd (fst run)) = firstn (Z.to_nat (read (fst (fst run)))) raw) as Hd
      by (rewrite Hread; auto).
  repeat split; auto.
  intros Hex. rewrite Hd, Hread. unfold exhausted in Hex. rewrite Hs in Hex.
  apply firstn_all2. lia.
Qed.

Lemma upload_body_delivered_in_order_witness :
  delivered (snd (fst (readCalls 0 (uploadReader [x01; x02; x03; x04; x05])
                         [(2%nat, 10); (0%nat, 20); (2%nat, 30); (64%nat, 40);
                          (64%nat, 50)])))
  = [x01; x02; x03; x04; x05].
Proof.
  assert (Z.of_nat (List.length [x01; x02; x03; x04; x05]) < 2 ^ 63) as Hfits
      by reflexivity.
  apply (upload_body_delivered_in_order 0 [x01; x02; x03; x04; x05]
           [(2%nat, 10); (0%nat, 20); (2%nat, 30); (64%nat, 40); (64%nat, 50)] Hfits).
  vm_compute. discriminate.
Defined.

(** ** The reader: when a progress line is written *)

(** The line written by [render] in the state reached by a call, or none. *)
Section TickFacts.

Variable indef : Z.
Context {R : Type} `{Reader R}.

Lemma isRender_render (p : progressReader R) : isRender (EvStderr (render indef p)) = true.
Proof.
  cbn [isRender]. pose proof (render_not_done indef p) as Hnd.
  cbn [isDone] in Hnd. now rewrite Hnd.
Qed.

Lemma isRender_done (p : progressReader R) : isRender (EvStderr (renderDone p)) = false.
Proof. reflexivity. Qed.

Lemma time_Sub_interval (t u : Z) :
  150 * time_Millisecond <= time_Sub t u <-> 150 * time_Millisecond <= t - u.
Proof.
  unfold time_Sub, time_Millisecond.
  change (2 ^ 63) with 9223372036854775808. lia.
Qed.

(** One call: either no progress line is written and [lastTick] stays, or
    one is written, bytes were returned, [lastTick] becomes the clock
    reading, and 150 ms had passed or the counter has reached the total. *)
Lemma progressReader_Read_tick (p : progressReader R) (blen : nat) (now : Z) :
  let p' := fst (fst (progressReader_Read indef p blen now)) in
  let res := snd (fst (progressReader_Read indef p blen now)) in
  let out := snd (progressReader_Read indef p blen now) in
  (countEv isRender out = 0%nat /\ lastTick p' = lastTick p
   /\ (0 < rr_n res -> now - lastTick p < 150 * time_Millisecond /\ read p' <> total p'))
  \/ (countEv isRender out = 1%nat /\ lastTick p' = now /\ 0 < rr_n res
      /\ (150 * time_Millisecond <= now - lastTick p \/ read p' = total p')
      /\ In (EvStderr (render indef (mkProgressReader (r p') (total p') (read p')
                                                     (lastTick p)))) out).
Proof.
  unfold progressReader_Read, countEv.
  destruct (Read (r p) blen) as [r' res]. cbn [total read lastTick r].
  destruct (Z.gtb_spec (rr_n res) 0) as [Hpos|Hzero].
  - destruct (Z.leb_spec (150 * time_Millisecond) (time_Sub now (lastTick p))) as [Ht|Ht];
      [|destruct (Z.eqb_spec (wrap64 (read p + rr_n res)) (total p)) as [He|He]];
      cbn [orb fst snd r total read lastTick].
    + right. rewrite filter_app. cbn [filter]. rewrite isRender_render.
      destruct (is_EOF (rr_err res)); cbn [filter isRender app List.length];
        (repeat split; auto; [left; now apply time_Sub_interval | cbn; auto]).
    + right. rewrite filter_app. cbn [filter]. rewrite isRender_render.
      destruct (is_EOF (rr_err res)); cbn [filter isRender app List.length];
        (repeat split; auto; cbn; auto).
    + assert (now - lastTick p < 150 * time_Millisecond) as Ht'
          by (destruct (Z_lt_le_dec (now - lastTick p) (150 * time_Millisecond));
              [assumption | apply time_Sub_interval in l; lia]).
      left. destruct (is_EOF (rr_err res)); cbn [filter isRender app List.length];
        (repeat split; auto).
  - left. cbn [fst snd r total read lastTick].
    destruct (is_EOF (rr_err res)); cbn [filter isRender app List.length];
      (repeat split; auto; lia).
Qed.

Lemma readCalls_quiet (calls : list (nat * Z)) (p : progressReader R) :
  countEv isRender (snd (readCalls indef p calls)) = 0%nat ->
  lastTick (fst (fst (readCalls indef p calls))) = lastTick p.
Proof.
  revert p. induction calls as [|[blen now] calls IH]; intros p Hq; [reflexivity|].
  rewrite readCalls_cons in Hq |- *. cbn [fst snd] in Hq |- *.
  unfold countEv in Hq. rewrite filter_app, length_app in Hq.
  destruct (progressReader_Read_tick p blen now) as [(Hc & Hl & _)|(Hc & _)];
    unfold countEv in Hc; [|lia].
  rewrite IH by (unfold countEv; lia). exact Hl.
Qed.

End TickFacts.

(** X13.  Progress lines are throttled.  A call of [Read] writes at most one,
    and none when it returned no bytes.  If a call at clock reading [t1]
    wrote one, and the next call to write one comes at clock reading
    [t2], then at least 150 ms lie between the two, unless the second
    call brought the counter to the total. *)
Theorem progress_lines_throttled :
  forall (indef : Z) (R : Type) (src : Reader R) (p : progressReader R)
         (blen1 : nat) (t1 : Z) (between : list (nat * Z)) (blen2 : nat) (t2 : Z),
    let first := progressReader_Read indef p blen1 t1 in
    let quiet := readCalls indef (fst (fst first)) between in
    let second := progressReader_Read indef (fst (fst quiet)) blen2 t2 in
    (countEv isRender (snd second) <= 1)%nat
    /\ (rr_n (snd (fst second)) <= 0 -> countEv isRender (snd second) = 0%nat)
    /\ (countEv isRender (snd first) <> 0%nat ->
        countEv isRender (snd quiet) = 0%nat ->
        countEv isRender (snd second) <> 0%nat ->
        150 * time_Millisecond <= t2 - t1
        \/ read (fst (fst second)) = total (fst (fst second))).
Proof.
  intros indef R src p blen1 t1 between blen2 t2 first quiet second.
  pose proof (progressReader_Read_tick indef (fst (fst quiet)) blen2 t2) as H2.
  cbv zeta in H2. fold second in H2.
  split; [|split].
  - destruct H2 as [(Hc & _)|(Hc & _)]; lia.
  - intros Hn. destruct H2 as [(Hc & _)|(_ & _ & Hpos & _)]; [exact Hc | lia].
  - intros Hfirst Hquiet Hsecond.
    pose proof (progressReader_Read_tick indef p blen1 t1) as H1.
    cbv zeta in H1. fold first in H1.
    destruct H1 as [(Hc1 & _)|(_ & Hl1 & _)]; [contradiction|].
    pose proof (readCalls_quiet indef between (fst (fst first)) Hquiet) as Hl.
    fold quiet in Hl. rewrite Hl1 in Hl.
    destruct H2 as [(Hc2 & _)|(_ & _ & _ & Hwhy & _)]; [contradiction|].
    rewrite Hl in Hwhy. exact Hwhy.
Qed.

Lemma progress_lines_throttled_witness :
  150 * time_Millisecond <= 400000000 - 100000000
  \/ read (fst (fst (progressReader_Read 0
             (fst (fst (readCalls 0
                (fst (fst (progressReader_Read 0
                   (mkProgressReader (bytes_NewReader [x01; x02; x03; x04; x05; x06])
                                     6 0 (- 200000000)) 2 100000000)))
                [(2%nat, 200000000)]))) 1 400000000)))
     = total (fst (fst (progressReader_Read 0
             (fst (fst (readCalls 0
                (fst (fst (progressReader_Read 0
                   (mkProgressReader (bytes_NewReader [x01; x02; x03; x04; x05; x06])
                                     6 0 (- 200000000)) 2 100000000)))
                [(2%nat, 200000000)]))) 1 400000000))).
Proof.
  apply (proj2 (proj2 (progress_lines_throttled 0 bytesReader bytesReader_Read
           (mkProgressReader (bytes_NewReader [x01; x02; x03; x04; x05; x06])
                             6 0 (- 200000000))
           2 100000000 [(2%nat, 200000000)] 1 400000000)));
    vm_compute; first [reflexivity | discriminate].
Defined.

(** ** Exact arithmetic at completion *)

Lemma shr_1_even (a : Z) :
  0 <= a ->
  shr_1 (Build_shr_record (2 * a) false false) = Build_shr_record a false false.
Proof. intros Ha. destruct a as [|a|a]; [reflexivity | reflexivity | lia]. Qed.

Lemma iter_shr_1_exact (n : positive) :
  forall a, 0 <= a ->
    iter_pos shr_1 n (Build_shr_record (a * 2 ^ Z.pos n) false false)
    = Build_shr_record a false false.
Proof.
  induction n as [n IH|n IH|]; intros a Ha; cbn [iter_pos].
  - replace (a * 2 ^ Z.pos n~1) with (2 * (a * 2 ^ Z.pos n * 2 ^ Z.pos n)).
    + assert (0 < 2 ^ Z.pos n) by (apply Z.pow_pos_nonneg; lia).
      rewrite shr_1_even by nia. rewrite IH by nia. now apply IH.
    + replace (Z.pos n~1) with (Z.pos n + Z.pos n + 1) by lia.
      rewrite !Z.pow_add_r by lia. ring.
  - replace (a * 2 ^ Z.pos n~0) with (a * 2 ^ Z.pos n * 2 ^ Z.pos n).
    + assert (0 < 2 ^ Z.pos n) by (apply Z.pow_pos_nonneg; lia).
      rewrite IH by nia. now apply IH.
    + replace (Z.pos n~0) with (Z.pos n + Z.pos n) by lia.
      rewrite !Z.pow_add_r by lia. ring.
  - replace (a * 2 ^ 1) with (2 * a) by lia. now apply shr_1_even.
Qed.

(** A mantissa of 53 digits followed by zero bits is rounded to itself. *)
Lemma binary_round_aux_exact (sx : bool) (m : positive) (k e : Z) :
  Zdigits2 (Z.pos m) = 53 -> 0 <= k -> - 1074 <= e + k <= 971 ->
  binary_round_aux 53 1024 sx (Z.pos m * 2 ^ k) e loc_Exact = S754_finite sx m (e + k).
Proof.
  intros Hd Hk He.
  assert (forall e', - 1074 <= e' <= 971 ->
            shr_fexp 53 1024 (Z.pos m) e' loc_Exact
            = (Build_shr_record (Z.pos m) false false, e')) as Hfix.
  { intros e' He'. unfold shr_fexp. rewrite fexp64, Hd.
    replace (Z.max (53 + e' - 53) (- 1074) - e') with 0 by lia. reflexivity. }
  unfold binary_round_aux.
  assert (shr_fexp 53 1024 (Z.pos m * 2 ^ k) e loc_Exact
          = (Build_shr_record (Z.pos m) false false, e + k)) as ->.
  { destruct k as [|k|k]; [|clear Hk|lia].
    - rewrite Z.mul_1_r, Z.add_0_r. apply Hfix. lia.
    - unfold shr_fexp. rewrite fexp64, Zdigits2_mul_pow2, Hd by lia.
      replace (Z.max (53 + Z.pos k + e - 53) (- 1074) - e) with (Z.pos k) by lia.
      cbn [shr shr_record_of_loc]. now rewrite iter_shr_1_exact by lia. }
  cbn [shr_m loc_of_shr_record round_nearest_even].
  rewrite Hfix by lia. cbn [shr_m].
  change (1024 - 53) with 971.
  destruct (Z.leb_spec (e + k) 971); [reflexivity | lia].
Qed.

(** An integer of at most 53 digits converts exactly. *)
Lemma of_int_exact (z : Z) :
  0 < z -> Zdigits2 z <= 53 ->
  exists m, Z.pos m = z * 2 ^ (53 - Zdigits2 z)
            /\ Zdigits2 (Z.pos m) = 53
            /\ Float64.of_int z = S754_finite false m (Zdigits2 z - 53).
Proof.
  intros Hz Hd. destruct z as [|p|p]; try lia.
  pose proof (Zdigits2_pos (Z.pos p) eq_refl) as Hpos.
  unfold Float64.of_int, binary_normalize, binary_round, shl_align. rewrite fexp64.
  change (Z.pos (digits2_pos p)) with (Zdigits2 (Z.pos p)).
  replace (Z.max (Zdigits2 (Z.pos p) + 0 - 53) (- 1074) - 0)
    with (Zdigits2 (Z.pos p) - 53) by lia.
  destruct (Zdigits2 (Z.pos p) - 53) as [|k|k] eqn:Hk; [|lia|].
  - exists p. replace (53 - Zdigits2 (Z.pos p)) with 0 by lia.
    split; [lia|]. split; [lia|].
    pose proof (binary_round_aux_exact false p 0 0 ltac:(lia) ltac:(lia) ltac:(lia)) as Hr.
    rewrite Z.mul_1_r in Hr. exact Hr.
  - exists (Pos.iter xO p k).
    replace (53 - Zdigits2 (Z.pos p)) with (Z.pos k) by lia.
    split; [apply Pos_iter_xO|].
    assert (Zdigits2 (Z.pos (Pos.iter xO p k)) = 53) as Hd53.
    { rewrite Pos_iter_xO, Zdigits2_mul_pow2 by lia. lia. }
    split; [exact Hd53|].
    replace (Z.max (Zdigits2 (Z.pos p) + 0 - 53) (- 1074)) with (Z.neg k) by lia.
    pose proof (binary_round_aux_exact false (Pos.iter xO p k) 0 (Z.neg k)
                  Hd53 ltac:(lia) ltac:(lia)) as Hr.
    rewrite Z.mul_1_r, Z.add_0_r in Hr. exact Hr.
Qed.

Lemma div_eucl_exact (q b : Z) : 0 < b -> Z.div_eucl (q * b) b = (q, 0).
Proof.
  intros Hb. destruct (Z.div_eucl (q * b) b) as [q' r'] eqn:Heq.
  assert (q' = q * b / b) as -> by (unfold Z.div; now rewrite Heq).
  assert (r' = (q * b) mod b) as -> by (unfold Z.modulo; now rewrite Heq).
  now rewrite Z.div_mul, Z.mod_mul by lia.
Qed.

Lemma SFmul_exact (m1 m2 m : positive) (e1 e2 k : Z) :
  Zdigits2 (Z.pos m) = 53 -> 0 <= k ->
  Z.pos m1 * Z.pos m2 = Z.pos m * 2 ^ k ->
  - 1074 <= e1 + e2 + k <= 971 ->
  SFmul 53 1024 (S754_finite false m1 e1) (S754_finite false m2 e2)
  = S754_finite false m (e1 + e2 + k).
Proof.
  intros Hd Hk Hprod He. cbn [SFmul xorb].
  rewrite Pos2Z.inj_mul, Hprod. now apply binary_round_aux_exact.
Qed.

Lemma SFdiv_exact (m1 m2 m : positive) (e1 e2 k : Z) :
  Zdigits2 (Z.pos m1) = 53 -> Zdigits2 (Z.pos m2) = 53 -> Zdigits2 (Z.pos m) = 53 ->
  0 <= k ->
  Z.pos m1 * 2 ^ 53 = Z.pos m * 2 ^ k * Z.pos m2 ->
  - 1021 <= e1 - e2 -> - 1074 <= e1 - e2 - 53 + k <= 971 ->
  SFdiv 53 1024 (S754_finite false m1 e1) (S754_finite false m2 e2)
  = S754_finite false m (e1 - e2 - 53 + k).
Proof.
  intros Hd1 Hd2 Hd Hk Hquot Hnorm He. cbn [SFdiv xorb].
  assert (SFdiv_core_binary 53 1024 (Z.pos m1) e1 (Z.pos m2) e2
          = (Z.pos m * 2 ^ k, e1 - e2 - 53, loc_Exact)) as ->.
  { unfold SFdiv_core_binary. rewrite fexp64, Hd1, Hd2.
    match goal with
    | |- context [match ?s with Z0 => _ | Zpos _ => _ | Zneg _ => _ end] =>
        replace s with 53 by lia
    end.
    rewrite Z.shiftl_mul_pow2, Hquot, div_eucl_exact by lia.
    f_equal; [f_equal; lia|].
    unfold new_location, new_location_even, new_location_odd.
    now destruct (Z.even (Z.pos m2)). }
  now apply binary_round_aux_exact.
Qed.

(** When the counter has reached the total, and a hundred times the total
    still has at most 53 digits, the percent is exactly one hundred. *)
Lemma percent_complete (t : Z) :
  0 < t -> t * 100 < 2 ^ 53 ->
  Float64.div (Float64.mul (Float64.of_int t) (Float64.of_int 100)) (Float64.of_int t)
  = Float64.of_int 100.
Proof.
  intros Ht Hsmall.
  set (d := Zdigits2 t). set (dT := Zdigits2 (t * 100)).
  pose proof (Zdigits2_mul t 100 Ht eq_refl) as HdT.
  change (Zdigits2 100) with 7 in HdT. fold d dT in HdT.
  pose proof (Zdigits2_bounds (t * 100) ltac:(lia)) as [HTlo _]. fold dT in HTlo.
  pose proof (Zdigits2_pos t Ht) as Hdpos. fold d in Hdpos.
  assert (dT <= 53) as HdT53.
  { destruct (Z_le_gt_dec dT 53) as [|Hgt]; [assumption|].
    assert (2 ^ 53 <= 2 ^ (dT - 1)) by (apply Z.pow_le_mono_r; lia). lia. }
  destruct (of_int_exact t Ht ltac:(fold d; lia)) as (m2 & Hm2 & Hm2d & ->).
  destruct (of_int_exact (t * 100) ltac:(lia) ltac:(fold dT; lia)) as (mT & HmT & HmTd & _).
  fold d in Hm2 |- *. fold dT in HmT.
  change (Float64.of_int 100) with (S754_finite false 7036874417766400 (-46)).
  unfold Float64.mul, Float64.div, Float64.prec, Float64.emax.
  rewrite (SFmul_exact m2 7036874417766400 mT (d - 53) (-46) (46 - d + dT)); try lia.
  - rewrite (SFdiv_exact mT m2 7036874417766400 (d - 53 + -46 + (46 - d + dT)) (d - 53)
               (7 - dT + d)); try lia; try reflexivity.
    + f_equal. lia.
    + rewrite Hm2, HmT. change (Z.pos 7036874417766400) with (100 * 2 ^ 46).
      assert (2 ^ (53 - dT) * 2 ^ 53
              = 2 ^ 46 * 2 ^ (7 - dT + d) * 2 ^ (53 - d)) as Hp.
      { rewrite <- !Z.pow_add_r by lia. f_equal. lia. }
      nia.
  - rewrite Hm2, HmT. change (Z.pos 7036874417766400) with (100 * 2 ^ 46).
    assert (2 ^ (53 - d) * 2 ^ 46 = 2 ^ (53 - dT) * 2 ^ (46 - d + dT)) as Hp.
    { rewrite <- !Z.pow_add_r by lia. f_equal. lia. }
    nia.
Qed.

(** The progress line in a state whose counter has reached the total. *)
Lemma render_complete_line {R : Type} (indef : Z) (p : progressReader R) :
  read p = total p -> 0 < total p -> total p * 100 < 2 ^ 53 ->
  render indef p = (CR ++ "Progress: [====================] 100.00%")%string.
Proof.
  intros Hread Hpos Hsmall.
  assert (percentOf p = Float64.of_int 100) as Hpct.
  { unfold percentOf. rewrite Hread. now apply percent_complete. }
  unfold render, filledOf. rewrite Hpct. reflexivity.
Qed.

Section CompletionFacts.

Variable indef : Z.
Variable raw : list byte.
Hypothesis raw_fits : Z.of_nat (List.length raw) < 2 ^ 63.

Lemma progressReader_Read_completes (p : progressReader bytesReader) (blen : nat) (now : Z) :
  readerInv raw p ->
  br_i (r p) < Z.of_nat (List.length raw) ->
  exhausted (r (fst (fst (progressReader_Read indef p blen now)))) ->
  exists q : progressReader bytesReader,
    In (EvStderr (render indef q)) (snd (progressReader_Read indef p blen now))
    /\ read q = total q /\ total q = Z.of_nat (List.length raw).
Proof.
  intros Hinv Hmore Hex.
  destruct (progressReader_Read_inv indef raw raw_fits p blen now Hinv)
    as ((Hs1 & Hi1 & Hr1 & Ht1) & Hsum & Hn & _).
  destruct Hinv as (Hs & Hi & Hr & Ht).
  unfold exhausted in Hex. rewrite Hs1 in Hex.
  pose proof (progressReader_Read_tick indef p blen now) as Htick. cbv zeta in Htick.
  destruct Htick as [(_ & _ & Hno)|(_ & _ & _ & _ & Hin)].
  - exfalso. destruct Hno as [_ Hne]; lia.
  - eexists. split; [exact Hin|]. cbn [read total]. lia.
Qed.

Lemma readCalls_completes (calls : list (nat * Z)) (p : progressReader bytesReader) :
  readerInv raw p ->
  br_i (r p) < Z.of_nat (List.length raw) ->
  exhausted (r (fst (fst (readCalls indef p calls)))) ->
  exists q : progressReader bytesReader,
    In (EvStderr (render indef q)) (snd (readCalls indef p calls))
    /\ read q = total q /\ total q = Z.of_nat (List.length raw).
Proof.
  revert p. induction calls as [|[blen now] calls IH]; intros p Hinv Hmore Hex.
  - cbn in Hex. destruct Hinv as (Hs & _). unfold exhausted in Hex. rewrite Hs in Hex. lia.
  - rewrite readCalls_cons in Hex |- *. cbn [fst snd] in Hex |- *.
    destruct (progressReader_Read_inv indef raw raw_fits p blen now Hinv) as (Hinv1 & _).
    destruct (Z_lt_le_dec (br_i (r (fst (fst (progressReader_Read indef p blen now)))))
                          (Z.of_nat (List.length raw))) as [Hlt|Hge].
    + destruct (IH _ Hinv1 Hlt Hex) as (q & Hin & Hq).
      exists q. split; [apply in_or_app; now right | exact Hq].
    + destruct (progressReader_Read_completes p blen now Hinv Hmore) as (q & Hin & Hq).
      { unfold exhausted. destruct Hinv1 as (Hs1 & _). now rewrite Hs1. }
      exists q. split; [apply in_or_app; now left | exact Hq].
Qed.

End CompletionFacts.

(** X14.  Completion is always shown, whatever the timing of the calls: once a
    body that is not empty has been read to its end, a progress line for
    the state in which the counter equals the total has been written; and
    when a hundred times the total has at most 53 binary digits (any
    body below 2^46 bytes) that line is a full bar and 100.00 percent,
    the arithmetic on [float64] being exact there. *)
Theorem completion_always_shown :
  forall (indef : Z) (raw : list byte) (calls : list (nat * Z)),
    raw <> [] ->
    Z.of_nat (List.length raw) < 2 ^ 63 ->
    exhausted (r (fst (fst (readCalls indef (uploadReader raw) calls)))) ->
    (exists q : progressReader bytesReader,
        In (EvStderr (render indef q)) (snd (readCalls indef (uploadReader raw) calls))
        /\ read q = total q /\ total q = Z.of_nat (List.length raw))
    /\ (Z.of_nat (List.length raw) * 100 < 2 ^ 53 ->
        In (EvStderr (CR ++ "Progress: [====================] 100.00%"))
           (snd (readCalls indef (uploadReader raw) calls))).
Proof.
  intros indef raw calls Hne Hfits Hex.
  assert (0 < Z.of_nat (List.length raw)) as Hpos by (destruct raw; [contradiction | cbn; lia]).
  destruct (readCalls_completes indef raw Hfits calls _ (uploadReader_inv raw))
    as (q & Hin & Hread & Htot); [cbn; lia | exact Hex |].
  split; [eauto|].
  intros Hsmall. rewrite <- (render_complete_line indef q); [exact Hin | exact Hread | |]; lia.
Qed.

Lemma completion_always_shown_witness :
  In (EvStderr (CR ++ "Progress: [====================] 100.00%"))
     (snd (readCalls 0 (uploadReader [x01; x02; x03])
             [(2%nat, 1000000000); (2%nat, 1000000001)])).
Proof.
  apply (completion_always_shown 0 [x01; x02; x03]
           [(2%nat, 1000000000); (2%nat, 1000000001)]).
  - discriminate.
  - reflexivity.
  - vm_compute. discriminate.
  - reflexivity.
Defined.

(** X15.  The first chunk is always shown.  [lastTick] starts as the zero time,
    which lies more than 150 ms before any clock reading of the run, so
    the first call on the body that returns bytes writes a progress
    line and sets [lastTick]. *)
Theorem first_chunk_always_shown :
  forall (indef : Z) (raw : list byte) (blen : nat) (now : Z),
    raw <> [] -> (0 < blen)%nat -> 150 * time_Millisecond <= now ->
    let call := progressReader_Read indef (uploadReader raw) blen now in
    countEv isRender (snd call) = 1%nat
    /\ lastTick (fst (fst call)) = now
    /\ rr_data (snd (fst call)) = firstn blen raw.
Proof.
  intros indef raw blen now Hne Hblen Hnow call.
  pose proof (progressReader_Read_tick indef (uploadReader raw) blen now) as Htick.
  cbv zeta in Htick. fold call in Htick.
  assert (rr_data (snd (fst call)) = firstn blen raw /\ 0 < rr_n (snd (fst call)))
    as [Hdata Hn].
  { unfold call, progressReader_Read, Read, bytesReader_Read, uploadReader.
    cbn [r bytes_NewReader br_s br_i total read lastTick].
    destruct raw as [|x raw]; [contradiction|].
    destruct blen as [|blen]; [lia|].
    cbn [List.length Z.of_nat Z.leb Z.compare Z.to_nat skipn firstn rr_n].
    destruct (_ >? 0); [destruct (_ || _)|]; cbn [fst snd rr_data rr_n]; split;
      try reflexivity; lia. }
  destruct Htick as [(_ & _ & Hno)|(Hc & Hl & _)].
  - exfalso. destruct (Hno Hn) as [Hlt _].
    cbn [uploadReader lastTick] in Hlt. lia.
  - auto.
Qed.

Lemma first_chunk_always_shown_witness :
  countEv isRender
    (snd (progressReader_Read 0 (uploadReader [x01; x02; x03]) 2 1700000000000000000))
  = 1%nat.
Proof.
  apply (first_chunk_always_shown 0 [x01; x02; x03] 2 1700000000000000000).
  - discriminate.
  - apply Nat.lt_0_succ.
  - vm_compute. discriminate.
Defined.

Lemma file_opened_iff_regular_within_limit_witness :
  fe_stat sampleUpload = inr (false, maxUploadSize)
  /\ exists rest,
      trace (processFile 0 (fun s => s) (fun _ _ bs => bs) "abc.bin" sampleUpload)
      = EvStat "abc.bin" :: EvOpen "abc.bin" :: rest.
Proof.
  split; [reflexivity|].
  apply (proj1 (proj2 (file_opened_iff_regular_within_limit 0 (fun s => s)
                         (fun _ _ bs => bs) "abc.bin" sampleUpload)) maxUploadSize).
  - reflexivity.
  - apply Z.le_refl.
Defined.

Lemma queried_url_is_digest_of_content_witness :
  exists bs,
    fe_hashFile sampleUpload = Contents bs
    /\ "https://virusscan.jotti.org/en-US/search/hash/a9993e364706816aba3e25717850c26c9cd0d89d"%string
       = jottiChecksumURL (hex_EncodeToString (Sha1.sum bs)).
Proof.
  destruct (queried_url_is_digest_of_content 0 (fun s => s) (fun _ _ bs => bs)
              "abc.bin" sampleUpload
              "https://virusscan.jotti.org/en-US/search/hash/a9993e364706816aba3e25717850c26c9cd0d89d")
    as (bs & Hhash & Hurl & _).
  - vm_compute. auto 10.
  - exists bs. split; [exact Hhash | exact Hurl].
Defined.

Lemma upload_only_after_not_found_witness :
  saysNotFound (fe_lookup sampleUpload) = true.
Proof.
  apply (upload_only_after_not_found 0 (fun s => s) (fun _ _ bs => bs)
           "abc.bin" sampleUpload jottiUploadURL 3).
  vm_compute. auto 20.
Defined.

(** ** The bar in any state *)

(** X16.  The bar never overflows.  In any state at all, also one whose counter
    exceeds the total or whose total is zero, and whatever the platform
    gives for a conversion out of range, the line of [render] starts with
    a carriage return, its bar has exactly 20 cells, filled ones first,
    and it ends with the percent sign. *)
Theorem bar_never_overflows :
  forall (indef : Z) (R : Type) (p : progressReader R),
    exists k,
      (k <= 20)%nat
      /\ render indef p
         = (CR ++ "Progress: [" ++ barOf k ++ "] "
               ++ Float64.fmt_6_2f (percentOf p) ++ "%")%string
      /\ String.length (barOf k) = Z.to_nat progressBarWidth
      /\ lastChar (render indef p) = Some "%"%char.
Proof.
  intros indef R p.
  pose proof (render_line indef R p) as Hline. cbv zeta in Hline.
  destruct Hline as (Hrender & Hk & Hlen & _ & _ & Hlast).
  eexists. repeat split; eauto.
Qed.

(** The bar when the counter is past the total and when the total is zero. *)
Example render_past_total :
  render 0 (mkProgressReader tt 10 25 0)
  = (CR ++ "Progress: [====================] 250.00%")%string.
Proof. vm_compute. reflexivity. Qed.

Example render_zero_total :
  render (- 2 ^ 63) (mkProgressReader tt 0 5 0)
  = (CR ++ "Progress: [                    ]   +Inf%")%string.
Proof. vm_compute. reflexivity. Qed.
